(** * nereid.helpers: pagination, sitemaps, flashed messages and slugs

    A shallow embedding of [nereid/helpers.py] (Python 2).  Python integers
    are [Z]; a character is its ordinal, so that a [str] is a list of byte
    values and a [unicode] a list of code points; dictionaries are finite
    maps; a raised exception is the [Raise] branch of [result].  Calls into
    the ORM and the SQL cursor are recorded in an explicit trace wherever a
    property speaks about which calls are made. *)

From Stdlib Require Import ZArith NArith QArith Qround Lia List Ascii String.
From Stdlib Require Import DecimalString.
From Stdlib Require Import Floats.SpecFloat.
From stdpp Require Import base option list sorting gmap strings.

Import ListNotations.
Local Open Scope Z_scope.

(** ** Exceptions *)

Inductive exn : Type :=
| ZeroDivisionError
| OverflowError
| TypeError
| IndexError
| KeyError (key : string)
| ValueError
| UnicodeDecodeError
| RuntimeError (msg : string)
| Exception_ (msg : string).

Inductive result (A : Type) : Type :=
| Ok (a : A)
| Raise (e : exn).

Arguments Ok {A} a.
Arguments Raise {A} e.

Definition result_bind {A B : Type} (m : result A) (k : A -> result B) : result B :=
  match m with
  | Ok a => k a
  | Raise e => Raise e
  end.

Notation "'do' x <- m ; k" := (result_bind m (fun x => k))
  (at level 10, x name, m at level 100, k at level 200).

(** ** Calls that leave the module *)

(** The ORM is Tryton's.  What the helpers rely on is kept: a model is a
    table of records, and a search returns the ids of the records that
    satisfy every clause of a domain. *)
Module Orm.

(** Operands of a domain clause *)
Inductive value : Type :=
| VInt (n : Z)
| VStr (s : string)
| VBool (b : bool)
| VList (l : list Z).

(** A clause is the tuple [(field, operator, operand)]; a domain is a list
    of clauses, all of which a record has to satisfy. *)
Definition clause : Type := string * string * value.
Definition domain : Type := list clause.

Record record : Type := mk_record {
  id : Z;
  fields : gmap string value
}.

Definition table : Type := list record.

(** A record with no field but its id *)
Definition bare (i : Z) : record := mk_record i ∅.

Definition getattr (r : record) (name : string) : option value :=
  if String.eqb name "id" then Some (VInt (id r)) else fields r !! name.

Definition compare_int (op : string) (a b : Z) : bool :=
  if String.eqb op "=" then a =? b
  else if String.eqb op "!=" then negb (a =? b)
  else if String.eqb op "<" then a <? b
  else if String.eqb op "<=" then a <=? b
  else if String.eqb op ">" then b <? a
  else if String.eqb op ">=" then b <=? a
  else false.

Definition eval_clause (r : record) (c : clause) : bool :=
  let '(name, op, operand) := c in
  match getattr r name, operand with
  | Some (VInt a), VInt b => compare_int op a b
  | Some (VInt a), VList l =>
      if String.eqb op "in" then bool_decide (a ∈ l)
      else if String.eqb op "not in" then negb (bool_decide (a ∈ l))
      else false
  | Some (VStr a), VStr b =>
      if String.eqb op "=" then String.eqb a b
      else if String.eqb op "!=" then negb (String.eqb a b)
      else false
  | Some (VBool a), VBool b =>
      if String.eqb op "=" then Bool.eqb a b
      else if String.eqb op "!=" then negb (Bool.eqb a b)
      else false
  | _, _ => false
  end.

Definition matches (d : domain) (r : record) : bool :=
  forallb (eval_clause r) d.

(** [model.search(domain)]: the ids of the matching records, in table order *)
Definition search (tbl : table) (d : domain) : list Z :=
  id <$> filter (fun r => matches d r = true) tbl.

(** [model.search(domain, count=True)] *)
Definition search_count (tbl : table) (d : domain) : Z :=
  Z.of_nat (length (search tbl d)).

(** [model.browse(id)] *)
Definition browse (tbl : table) (i : Z) : option record :=
  List.find (fun r => id r =? i) tbl.

End Orm.

(** What a method asked of the ORM or of the cursor *)
Inductive call : Type :=
| OrmSearchCount (d : Orm.domain)
| OrmBrowse (ids : list Z)
| CursorExecute (sql : string).

(** A computation together with the calls it made *)
Definition traced (A : Type) : Type := list call * result A.

Definition traced_ret {A : Type} (a : A) : traced A := ([], Ok a).

Definition traced_raise {A : Type} (e : exn) : traced A := ([], Raise e).

Definition traced_call {A : Type} (c : call) (answer : A) : traced A :=
  ([c], Ok answer).

Definition traced_bind {A B : Type} (m : traced A) (k : A -> traced B) : traced B :=
  match m with
  | (t, Ok a) => let '(t', r) := k a in (t ++ t', r)
  | (t, Raise e) => (t, Raise e)
  end.

Notation "'run' x <- m ; k" := (traced_bind m (fun x => k))
  (at level 10, x name, m at level 100, k at level 200).

(** ** Python numbers and formatting *)

Module Py.

(** [float]: the source divides in binary64.  The embedding uses exact
    rationals; [Binary64] further down is the same expression in IEEE
    arithmetic, and the two are proved to give the same number of pages
    whenever the operands are below 2^53. *)
Definition float (n : Z) : Q := inject_Z n.

(** [x / y] on floats *)
Definition truediv (x y : Q) : result Q :=
  if Qeq_bool y 0 then Raise ZeroDivisionError else Ok (x / y)%Q.

(** [math.ceil] returns an integral float *)
Definition ceil (x : Q) : Q := inject_Z (Qceiling x).

(** [int(x)] on a float truncates towards zero *)
Definition int (x : Q) : Z :=
  if Qle_bool 0 x then Qfloor x else Qceiling x.

(** [min] of two integers *)
Definition min (a b : Z) : Z := if a <=? b then a else b.

(** ['%d' % n] *)
Definition fmt_d (n : Z) : string := NilZero.string_of_int (Z.to_int n).

(** [len] of a clause operand *)
Definition len (v : Orm.value) : result Z :=
  match v with
  | Orm.VList l => Ok (Z.of_nat (length l))
  | Orm.VStr s => Ok (Z.of_nat (String.length s))
  | _ => Raise TypeError
  end.

End Py.

(** ** BasePagination *)

Module BasePagination.

(** The three attributes the inherited properties read through [self].
    [count] is overridden by every subclass, hence the interface. *)
Class Paginated (P : Type) : Type := {
  page : P -> Z;
  per_page : P -> Z;
  count : P -> Z
}.

(** [BasePagination(page, per_page, data)] *)
Record t (A : Type) : Type := mk {
  self_per_page : Z;
  self_page : Z;
  self_data : list A
}.
Arguments mk {A} _ _ _.
Arguments self_per_page {A} _.
Arguments self_page {A} _.
Arguments self_data {A} _.

(** [__init__]: [data] defaults to the empty list *)
Definition init {A : Type} (page per_page : Z) (data : option (list A)) : t A :=
  mk per_page page (match data with Some d => d | None => [] end).

#[global] Instance paginated_base {A : Type} : Paginated (t A) := {
  page := self_page;
  per_page := self_per_page;
  count := fun self => Z.of_nat (length (self_data self))
}.

(** A pagination of which only the numbers are known: what any subclass
    looks like to the inherited properties once its [count] is computed. *)
Record numbers : Type := mk_numbers {
  n_page : Z;
  n_per_page : Z;
  n_count : Z
}.

#[global] Instance paginated_numbers : Paginated numbers := {
  page := n_page;
  per_page := n_per_page;
  count := n_count
}.

Section Properties.
Context {P : Type} `{Paginated P}.

(** [offset = (page - 1) * per_page] *)
Definition offset (self : P) : Z := (page self - 1) * per_page self.

Definition prev_num (self : P) : Z := page self - 1.

Definition next_num (self : P) : Z := page self + 1.

Definition has_prev (self : P) : bool := 1 <? page self.

(** [pages = int(ceil(count / float(per_page)))], the quotient taken
    exactly.  [Binary64.pages] is the expression as the interpreter
    evaluates it, in binary64; it returns this number whenever [count] and
    [per_page] are below 2^53. *)
Definition pages (self : P) : result Z :=
  do q <- Py.truediv (Py.float (count self)) (Py.float (per_page self));
  Ok (Py.int (Py.ceil q)).

Definition has_next (self : P) : result bool :=
  do n <- pages self; Ok (page self <? n).

(** [begin_count = min([(page - 1) * per_page + 1, count])] *)
Definition begin_count (self : P) : Z :=
  Py.min ((page self - 1) * per_page self + 1) (count self).

(** [end_count = min(begin_count + per_page - 1, count)] *)
Definition end_count (self : P) : Z :=
  Py.min (begin_count self + per_page self - 1) (count self).

(** The test that decides whether [iter_pages] shows [num] *)
Definition shown (self : P) (npages : Z)
    (left_edge left_current right_current right_edge : Z) (num : Z) : bool :=
  (num <=? left_edge)
  || ((page self - left_current - 1 <? num) && (num <? page self + right_current))
  || (npages - right_edge <? num).

(** The loop of [iter_pages] over the numbers still to visit; [last] is the
    last number yielded so far. *)
Fixpoint iter_pages_loop (self : P) (npages : Z)
    (left_edge left_current right_current right_edge : Z)
    (nums : list Z) (last : Z) : list (option Z) :=
  match nums with
  | [] => []
  | num :: rest =>
      if shown self npages left_edge left_current right_current right_edge num
      then
        (if last + 1 =? num then [] else [None])
          ++ Some num
          :: iter_pages_loop self npages left_edge left_current
               right_current right_edge rest num
      else
        iter_pages_loop self npages left_edge left_current
          right_current right_edge rest last
  end.

(** [iter_pages]: what the generator yields, [None] marking a gap *)
Definition iter_pages (self : P)
    (left_edge left_current right_current right_edge : Z)
    : result (list (option Z)) :=
  do npages <- pages self;
  Ok (iter_pages_loop self npages left_edge left_current right_current
        right_edge (seqZ 1 npages) 0).

End Properties.

End BasePagination.

(** ** Pagination over a search domain *)

Module Pagination.

(** [Pagination(obj, domain, page, per_page, order)]; [obj] is the model,
    seen here as its table, and [_count] the class attribute a caller may
    set to a cached count. *)
Record t : Type := mk {
  obj : Orm.table;
  domain : Orm.domain;
  order : option (list (string * string));
  page : Z;
  per_page : Z;
  _count : option Z
}.

Definition init (obj : Orm.table) (domain : Orm.domain) (page per_page : Z)
    (order : option (list (string * string))) : t :=
  mk obj domain order page per_page None.

(** [ids_domain]: the domain is one clause on [id] with operator [in], and
    no order was asked for *)
Definition ids_domain (self : t) : bool :=
  match domain self with
  | [(name, op, _)] =>
      String.eqb name "id" && String.eqb op "in"
      && bool_decide (order self = None)
  | _ => false
  end.

(** [self.domain[0][2]] *)
Definition domain_0_2 (self : t) : result Orm.value :=
  match domain self with
  | (_, _, operand) :: _ => Ok operand
  | [] => Raise IndexError
  end.

(** [count] *)
Definition count (self : t) : traced Z :=
  if ids_domain self then
    (run operand <- ([], domain_0_2 self); ([], Py.len operand))
  else
    match _count self with
    | Some c => traced_ret c
    | None =>
        traced_call (OrmSearchCount (domain self))
          (Orm.search_count (obj self) (domain self))
    end.

End Pagination.

(** ** Pagination over a SQL query *)

Module QueryPagination.

(** [QueryPagination(obj, search_query, count_query, page, per_page)] *)
Record t : Type := mk {
  obj : Orm.table;
  search_query : string;
  count_query : string;
  page : Z;
  per_page : Z
}.

Definition offset (self : t) : Z := (page self - 1) * per_page self.

Section Cursor.
(** The rows the database answers to a statement *)
Variable fetchall : string -> list (list Z).

(** [cursor.execute(sql)] followed by [cursor.fetchone()[0]] *)
Definition execute_fetchone_0 (sql : string) : traced Z :=
  run rows <- traced_call (CursorExecute sql) (fetchall sql);
  match rows with
  | (v :: _) :: _ => traced_ret v
  | [] :: _ => traced_raise IndexError
  | [] => traced_raise TypeError
  end.

(** [[x[0] for x in rows]] *)
Fixpoint first_column (rows : list (list Z)) : traced (list Z) :=
  match rows with
  | [] => traced_ret []
  | [] :: _ => traced_raise IndexError
  | (v :: _) :: rest => run vs <- first_column rest; traced_ret (v :: vs)
  end.

(** [cursor.execute(sql)] followed by [[x[0] for x in cursor.fetchall()]] *)
Definition execute_fetchall_0 (sql : string) : traced (list Z) :=
  run rows <- traced_call (CursorExecute sql) (fetchall sql);
  first_column rows.

(** [count] *)
Definition count (self : t) : traced Z :=
  execute_fetchone_0 (count_query self).

(** [all_items] *)
Definition all_items (self : t) : traced (list Z) :=
  run rv <- execute_fetchall_0 (search_query self);
  traced_call (OrmBrowse rv) rv.

(** [items] *)
Definition items (self : t) : traced (list Z) :=
  let limit_string := (" LIMIT " ++ Py.fmt_d (per_page self))%string in
  let offset_string := (" OFFSET " ++ Py.fmt_d (offset self))%string in
  run rv <- execute_fetchall_0
              (search_query self ++ limit_string ++ offset_string)%string;
  traced_call (OrmBrowse rv) rv.

End Cursor.

End QueryPagination.

(** ** Characters and text *)

Module Text.

(** A character is its ordinal: a byte value in a [str], a code point in a
    [unicode]. *)
Definition char : Type := N.

Definition is_ascii (c : char) : bool := (c <? 128)%N.

(** [\s] of [re] without flags, and the characters [str.strip] removes *)
Definition is_space (c : char) : bool :=
  ((9 <=? c) && (c <=? 13) || (c =? 32))%N.

(** [\w] of [re] without flags: letters, digits and the underscore *)
Definition is_word (c : char) : bool :=
  ((48 <=? c) && (c <=? 57) || (65 <=? c) && (c <=? 90)
   || (c =? 95) || (97 <=? c) && (c <=? 122))%N.

Definition hyphen : char := 45%N.

(** [str.lower] on one byte *)
Definition lower_char (c : char) : char :=
  if ((65 <=? c) && (c <=? 90))%N then (c + 32)%N else c.

Definition lower (s : list char) : list char := lower_char <$> s.

Fixpoint lstrip (s : list char) : list char :=
  match s with
  | c :: rest => if is_space c then lstrip rest else s
  | [] => []
  end.

Definition rstrip (s : list char) : list char := rev (lstrip (rev s)).

(** [s.strip()] *)
Definition strip (s : list char) : list char := rstrip (lstrip s).

(** [u.encode('ascii', 'ignore')] and [unicode(s, errors='ignore')]: what
    is not ASCII is dropped *)
Definition ascii_ignore (s : list char) : list char :=
  List.filter is_ascii s.

(** [unicode(s)]: decoding with the default codec, which is strict *)
Definition unicode (s : list char) : result (list char) :=
  if forallb is_ascii s then Ok s else Raise UnicodeDecodeError.

Definition of_string (s : string) : list char :=
  N_of_ascii <$> list_ascii_of_string s.

End Text.

(** ** slugify *)

Module Slug.

Import Text.

(** The argument is a [str] or a [unicode] *)
Inductive basestring : Type :=
| Str (bytes : list char)
| Unicode (points : list char).

(** [_SLUGIFY_STRIP_RE = re.compile(r'[^\w\s-]')], substituted by [''] *)
Definition _SLUGIFY_STRIP_RE_sub (s : list char) : list char :=
  List.filter (fun c => is_word c || is_space c || (c =? hyphen)%N) s.

Definition is_separator (c : char) : bool := (c =? hyphen)%N || is_space c.

(** [_SLUGIFY_HYPHENATE_RE = re.compile(r'[-\s]+')], substituted by ['-']:
    [in_match] tells that the character before belongs to a match whose
    hyphen is already written. *)
Fixpoint hyphenate_from (in_match : bool) (s : list char) : list char :=
  match s with
  | [] => []
  | c :: rest =>
      if is_separator c
      then (if in_match then [] else [hyphen]) ++ hyphenate_from true rest
      else c :: hyphenate_from false rest
  end.

Definition _SLUGIFY_HYPHENATE_RE_sub (s : list char) : list char :=
  hyphenate_from false s.

Section Normalize.
(** [unicodedata.normalize('NFKD', _)], the table of the Unicode database *)
Variable nfkd : list char -> list char.

Definition slugify (value : basestring) : result (list char) :=
  let value :=
    match value with
    | Unicode u => u
    | Str s => ascii_ignore s
    end in
  let value := ascii_ignore (nfkd value) in
  do value <- unicode (lower (strip (_SLUGIFY_STRIP_RE_sub value)));
  Ok (_SLUGIFY_HYPHENATE_RE_sub value).

End Normalize.

(** A fragment of the decomposition table: enough to run the examples of
    the docstring. *)
Definition nfkd_fragment_char (c : char) : list char :=
  if (c =? 229)%N then [97; 778]%N          (* a with ring above *)
  else if (c =? 197)%N then [65; 778]%N     (* A with ring above *)
  else if (c =? 233)%N then [101; 769]%N    (* e with acute *)
  else if (c =? 64257)%N then [102; 105]%N  (* ligature fi *)
  else [c].

Definition nfkd_fragment (s : list char) : list char :=
  s ≫= nfkd_fragment_char.

End Slug.

(** ** Flashed messages *)

Module Flash.

(** A queued message: [(category, text)] *)
Definition flashed : Type := string * string.

(** The session and the request context.  Session entries are queues of
    flashed messages, the only kind of value this module stores there;
    [flashes] is the attribute of [_request_ctx_stack.top], [None] when
    the request starts. *)
Record state : Type := mk {
  session : gmap string (list flashed);
  flashes : option (list flashed)
}.

(** What [get_flashed_messages] returns: the texts, or the pairs *)
Inductive messages : Type :=
| Texts (l : list string)
| Pairs (l : list flashed).

(** [session.setdefault('_flashes', []).append((category, unicode(message)))];
    the message is taken as text already. *)
Definition flash (message : string) (category : string) (st : state) : state :=
  let queue := default [] (session st !! "_flashes") in
  mk (<["_flashes" := queue ++ [(category, message)]]> (session st))
     (flashes st).

(** [get_flashed_messages(with_categories)] *)
Definition get_flashed_messages (with_categories : bool) (st : state)
    : messages * state :=
  let '(flashes, st) :=
    match flashes st with
    | Some flashes => (flashes, st)
    | None =>
        match session st !! "_flashes" with
        | Some queue =>
            (queue, mk (delete "_flashes" (session st)) (Some queue))
        | None => ([], mk (session st) (Some []))
        end
    end in
  if negb with_categories then (Texts (snd <$> flashes), st)
  else (Pairs flashes, st).

(** What a request does with the flash queue *)
Inductive op : Type :=
| Flash (message category : string)
| Get (with_categories : bool).

Definition step (o : op) (st : state) : option messages * state :=
  match o with
  | Flash message category => (None, flash message category st)
  | Get with_categories =>
      let '(r, st) := get_flashed_messages with_categories st in (Some r, st)
  end.

(** Runs the operations in order and collects what each returned *)
Fixpoint steps (os : list op) (st : state) : list (option messages) * state :=
  match os with
  | [] => ([], st)
  | o :: rest =>
      let '(r, st) := step o st in
      let '(rs, st) := steps rest st in
      (r :: rs, st)
  end.

(** [flash] once for each [(message, category)] of the list, in order *)
Definition flash_all (calls : list (string * string)) (st : state) : state :=
  foldl (fun st '(message, category) => flash message category st) st calls.

(** What [get_flashed_messages] makes of the pairs it holds *)
Definition returned (with_categories : bool) (queue : list flashed) : messages :=
  if with_categories then Pairs queue else Texts (snd <$> queue).

Definition queue_of (st : state) : list flashed :=
  default [] (session st !! "_flashes").

End Flash.

(** ** Pagination over a Sphinx search *)

Module SphinxPagination.

(** The methods of [sphinxapi.SphinxClient] that the pagination calls.  [C]
    is the state of a client and [R] an answer of the server; a method that
    changes the client returns the new state. *)
Class SphinxClientAPI (C R : Type) : Type := {
  SphinxClient : C;
  SetServer : string -> Z -> C -> result C;
  SetLimits : Z -> Z -> C -> result C;
  Query : string -> string -> C -> option R * C;
  GetLastError : C -> string;
  total_found : R -> Z;
  matches : R -> list Z
}.

(** [int(s)] for the text of a port number: blanks around an optional sign
    and decimal digits *)
Fixpoint digits_value (acc : Z) (s : list Text.char) : result Z :=
  match s with
  | [] => Ok acc
  | c :: rest =>
      if ((48 <=? c) && (c <=? 57))%N
      then digits_value (10 * acc + (Z.of_N c - 48)) rest
      else Raise ValueError
  end.

Definition int_of_str (s : string) : result Z :=
  match Text.strip (Text.of_string s) with
  | [] => Raise ValueError
  | c :: rest =>
      if (c =? 45)%N then
        match rest with
        | [] => Raise ValueError
        | _ => do v <- digits_value 0 rest; Ok (- v)
        end
      else if (c =? 43)%N then
        match rest with
        | [] => Raise ValueError
        | _ => digits_value 0 rest
        end
      else digits_value 0 (c :: rest)
  end.

Section Client.
Context {C R : Type} `{SphinxClientAPI C R}.

(** [SphinxPagination(obj, query, search_index, page, per_page)] *)
Record t : Type := mk {
  obj : Orm.table;
  query : string;
  search_index : string;
  sphinx_client : C;
  page : Z;
  per_page : Z
}.

(** [CONFIG.options[key]] *)
Definition getitem (options : gmap string string) (key : string) : result string :=
  match options !! key with
  | Some v => Ok v
  | None => Raise (KeyError key)
  end.

(** [sphinx_enabled]: both options are present in [CONFIG.options] *)
Definition sphinx_enabled (options : gmap string string) : bool :=
  bool_decide (is_Some (options !! "sphinx_server"))
  && bool_decide (is_Some (options !! "sphinx_port")).

(** [__init__] *)
Definition init (options : gmap string string) (obj : Orm.table)
    (query search_index : string) (page per_page : Z) : result t :=
  if negb (sphinx_enabled options) then
    Raise (RuntimeError "Sphinx is not available or configured")
  else
    do server <- getitem options "sphinx_server";
    do port <- getitem options "sphinx_port";
    do port <- int_of_str port;
    do client <- SetServer server port SphinxClient;
    Ok (mk obj query search_index client page per_page).

Definition offset (self : t) : Z := (page self - 1) * per_page self.

(** [result]: the answer of the server, and the client after the calls *)
Definition result_ (self : t) : result R * C :=
  match SetLimits (offset self) (per_page self) (sphinx_client self) with
  | Raise e => (Raise e, sphinx_client self)
  | Ok client =>
      let '(rv, client) := Query (query self) (search_index self) client in
      match rv with
      | None => (Raise (Exception_ (GetLastError client)), client)
      | Some rv => (Ok rv, client)
      end
  end.

(** [count] *)
Definition count (self : t) : result Z * C :=
  let '(rv, client) := result_ self in
  (do rv <- rv; Ok (total_found rv), client).

End Client.

Arguments t C : clear implicits.

(** A client for the examples: the server knows one index, [products], and
    answers every query on it with the ids 1 to 3. *)
Record toy_client : Type := mk_toy {
  toy_server : option (string * Z);
  toy_limits : Z * Z;
  toy_error : string
}.

#[global] Instance toy_api : SphinxClientAPI toy_client (Z * list Z) := {
  SphinxClient := mk_toy None (0, 20) "";
  SetServer := fun host port c =>
    Ok (mk_toy (Some (host, port)) (toy_limits c) (toy_error c));
  SetLimits := fun offset limit c =>
    Ok (mk_toy (toy_server c) (offset, limit) (toy_error c));
  Query := fun query index c =>
    if String.eqb index "products" then (Some (3, [1; 2; 3]), c)
    else (None, mk_toy (toy_server c) (toy_limits c) "unknown local index");
  GetLastError := toy_error;
  total_found := fst;
  matches := snd
}.

End SphinxPagination.

(** ** Sitemaps *)

Module SitemapIndex.

(** [SitemapIndex(model, domain, cache_timeout)]; [batch_size] is the class
    attribute, which a subclass may set. *)
Record t : Type := mk {
  model : Orm.table;
  domain : Orm.domain;
  cache_timeout : Z;
  batch_size : Z
}.

Definition init (model : Orm.table) (domain : Orm.domain) : t :=
  mk model domain (60 * 60 * 24) 1000.

(** [SELECT max(id) FROM table]: [None] on an empty table *)
Definition max_id (tbl : Orm.table) : option Z :=
  foldr (fun r acc =>
           match acc with
           | None => Some (Orm.id r)
           | Some m => Some (Z.max (Orm.id r) m)
           end) None tbl.

(** [count] *)
Definition count (self : t) : option Z := max_id (model self).

(** [float(x)] of what the cursor returned *)
Definition float_opt (x : option Z) : result Q :=
  match x with
  | Some n => Ok (Py.float n)
  | None => Raise TypeError
  end.

(** [page_count = int(ceil(float(count) / float(batch_size)))], the
    quotient taken exactly; [Binary64.page_count] is the expression in
    binary64. *)
Definition page_count (self : t) : result Z :=
  do c <- float_opt (count self);
  do q <- Py.truediv c (Py.float (batch_size self));
  Ok (Py.int (Py.ceil q)).

End SitemapIndex.

Module SitemapSection.

(** [SitemapSection(model, domain, page)], with its class attributes;
    [priority] is kept as the text that [str] makes of it. *)
Record t : Type := mk {
  model : Orm.table;
  domain : Orm.domain;
  page : Z;
  batch_size : Z;
  changefreq : string;
  priority : string
}.

Definition init (model : Orm.table) (domain : Orm.domain) (page : Z) : t :=
  mk model domain page 1000 "never" "0.5".

Definition min_id (self : t) : Z := (page self - 1) * batch_size self.

Definition max_id (self : t) : Z := min_id self + batch_size self.

(** The [url] element of one record *)
Record url : Type := mk_url {
  url_loc : string;
  url_lastmod : string;
  url_changefreq : string;
  url_priority : string
}.

(** The domain [__iter__] searches *)
Definition batch_domain (self : t) : Orm.domain :=
  [("id", ">", Orm.VInt (min_id self)); ("id", "<=", Orm.VInt (max_id self))]
    ++ domain self.

(** The ids [__iter__] walks through *)
Definition batch_ids (self : t) : list Z :=
  Orm.search (model self) (batch_domain self).

Section Urls.
(** [loc] and [lastmod] of a record: the URL comes from the model and the
    date from the record's timestamps. *)
Variable loc : Orm.record -> string.
Variable lastmod : Orm.record -> string.

Definition get_url_xml (self : t) (item : Orm.record) : url :=
  mk_url (loc item) (lastmod item) (changefreq self) (priority self).

(** [__iter__]: one element for each id found *)
Definition iter (self : t) : list url :=
  omap (fun i => get_url_xml self <$> Orm.browse (model self) i)
       (batch_ids self).

End Urls.

End SitemapSection.

(** ** The quotients in IEEE binary64, as the interpreter computes them *)

Module Binary64.

Definition prec : Z := 53.
Definition emax : Z := 1024.

(** [float(n)]: the nearest double, ties to even *)
Definition float (n : Z) : result spec_float :=
  match binary_normalize prec emax n 0 false with
  | S754_infinity _ => Raise OverflowError
  | x => Ok x
  end.

Definition truediv (x y : spec_float) : result spec_float :=
  match y with
  | S754_zero _ => Raise ZeroDivisionError
  | _ => Ok (SFdiv prec emax x y)
  end.

(** [int(ceil(x))] *)
Definition int_ceil (x : spec_float) : result Z :=
  match x with
  | S754_zero _ => Ok 0
  | S754_finite s m e =>
      let v := if s then Z.neg m else Z.pos m in
      Ok (if 0 <=? e then v * 2 ^ e else - ((- v) / 2 ^ (- e)))
  | S754_infinity _ => Raise OverflowError
  | S754_nan => Raise ValueError
  end.

(** [int(ceil(count / float(per_page)))] *)
Definition pages (count per_page : Z) : result Z :=
  do c <- float count;
  do p <- float per_page;
  do q <- truediv c p;
  int_ceil q.

(** [SitemapIndex.page_count]: [int(ceil(float(count) / float(batch_size)))],
    [float(None)] raising [TypeError] *)
Definition page_count (self : SitemapIndex.t) : result Z :=
  match SitemapIndex.count self with
  | Some c => pages c (SitemapIndex.batch_size self)
  | None => Raise TypeError
  end.

(** The two embeddings agree on [count] *)
Definition agree (per_page count : Z) : bool :=
  match pages count per_page,
        BasePagination.pages (BasePagination.mk_numbers 1 per_page count) with
  | Ok a, Ok b => a =? b
  | Raise ZeroDivisionError, Raise ZeroDivisionError => true
  | _, _ => false
  end.

End Binary64.

(** ** Slices and the items of a page *)

Module Slice.

(** An index of a slice: a negative one counts from the end, and what
    falls outside the list is cut to its ends. *)
Definition clamp (len i : Z) : Z :=
  if i <? 0 then Z.max 0 (i + len) else Z.min i len.

(** [l[start:stop]] *)
Definition slice {A : Type} (l : list A) (start stop : Z) : list A :=
  let len := Z.of_nat (length l) in
  let a := clamp len start in
  let b := clamp len stop in
  take (Z.to_nat (b - a)) (drop (Z.to_nat a) l).

End Slice.

Module Items.

(** [BasePagination.items]: [data[offset:offset + per_page]] *)
Definition items {A : Type} (self : BasePagination.t A) : list A :=
  Slice.slice (BasePagination.self_data self)
    (BasePagination.offset self)
    (BasePagination.offset self + BasePagination.per_page self).

(** [BasePagination.all_items] *)
Definition all_items {A : Type} (self : BasePagination.t A) : list A :=
  BasePagination.self_data self.

(** [BasePagination.__len__] *)
Definition len {A : Type} (self : BasePagination.t A) : Z :=
  BasePagination.count self.

(** The same data and page size, seen at page [p] *)
Definition at_page {A : Type} (self : BasePagination.t A) (p : Z)
    : BasePagination.t A :=
  BasePagination.mk (BasePagination.self_per_page self) p
    (BasePagination.self_data self).

End Items.

(** ** get_website_from_host *)

Module Host.

Import Text.

Definition colon : char := 58%N.

(** [s.split(sep)] for a separator of one character: the pieces between
    the separators, empty ones included *)
Fixpoint split (sep : char) (s : list char) : list (list char) :=
  match s with
  | [] => [[]]
  | c :: rest =>
      if (c =? sep)%N then [] :: split sep rest
      else
        match split sep rest with
        | piece :: pieces => (c :: piece) :: pieces
        | [] => [[c]]
        end
  end.

(** [http_host.split(':')[0]] *)
Definition get_website_from_host (http_host : list char) : result (list char) :=
  match split colon http_host with
  | name :: _ => Ok name
  | [] => Raise IndexError
  end.

End Host.

(** ** The items of a domain pagination *)

Module DomainItems.

(** What [items] and [all_items] ask of the ORM: a search with its offset,
    limit and order, and the ids handed to [browse] *)
Inductive orm_call : Type :=
| Search (d : Orm.domain) (offset : Z) (limit : option Z)
    (order : option (list (string * string)))
| Browse (ids : Orm.value).

(** [v[start:stop]] of a clause operand *)
Definition value_slice (v : Orm.value) (start stop : Z) : result Orm.value :=
  match v with
  | Orm.VList l => Ok (Orm.VList (Slice.slice l start stop))
  | Orm.VStr s =>
      Ok (Orm.VStr (string_of_list_ascii
                      (Slice.slice (list_ascii_of_string s) start stop)))
  | _ => Raise TypeError
  end.

Definition offset (self : Pagination.t) : Z :=
  (Pagination.page self - 1) * Pagination.per_page self.

(** The same pagination at page [p] *)
Definition at_page (self : Pagination.t) (p : Z) : Pagination.t :=
  Pagination.mk (Pagination.obj self) (Pagination.domain self)
    (Pagination.order self) p (Pagination.per_page self)
    (Pagination._count self).

Section Backend.
(** [obj.search(domain, offset=, limit=, order=)]: the ids the ORM finds *)
Variable search :
  Orm.domain -> Z -> option Z -> option (list (string * string)) -> list Z.

(** [Pagination.items] *)
Definition items (self : Pagination.t) : list orm_call * result Orm.value :=
  if Pagination.ids_domain self then
    match
      do operand <- Pagination.domain_0_2 self;
      value_slice operand (offset self) (offset self + Pagination.per_page self)
    with
    | Ok ids => ([Browse ids], Ok ids)
    | Raise e => ([], Raise e)
    end
  else
    let ids :=
      search (Pagination.domain self) (offset self)
        (Some (Pagination.per_page self)) (Pagination.order self) in
    ([Search (Pagination.domain self) (offset self)
        (Some (Pagination.per_page self)) (Pagination.order self);
      Browse (Orm.VList ids)],
     Ok (Orm.VList ids)).

(** [Pagination.all_items] *)
Definition all_items (self : Pagination.t) : list orm_call * result Orm.value :=
  if Pagination.ids_domain self then
    match Pagination.domain_0_2 self with
    | Ok ids => ([Browse ids], Ok ids)
    | Raise e => ([], Raise e)
    end
  else
    let ids := search (Pagination.domain self) 0 None None in
    ([Search (Pagination.domain self) 0 None None; Browse (Orm.VList ids)],
     Ok (Orm.VList ids)).

End Backend.

End DomainItems.

(** ** The cached answer of a Sphinx pagination *)

Module SphinxCached.

Import SphinxPagination.

Section Client.
Context {C R : Type} `{SphinxClientAPI C R}.

(** The pagination with what [cached_property] has stored in it so far *)
Record obj : Type := mk {
  self : SphinxPagination.t C;
  cached_result : option R;
  cached_count : option Z
}.

(** A pagination just built: nothing is cached *)
Definition fresh (self : SphinxPagination.t C) : obj := mk self None None.

Definition with_client (self : SphinxPagination.t C) (client : C)
    : SphinxPagination.t C :=
  SphinxPagination.mk (SphinxPagination.obj self) (SphinxPagination.query self)
    (SphinxPagination.search_index self) client
    (SphinxPagination.page self) (SphinxPagination.per_page self).

(** The number of queries one evaluation of [result] sends: one, unless
    [SetLimits] raises before *)
Definition queries_of_result (self : SphinxPagination.t C) : nat :=
  match SetLimits (SphinxPagination.offset self)
          (SphinxPagination.per_page self)
          (SphinxPagination.sphinx_client self) with
  | Ok _ => 1
  | Raise _ => 0
  end.

(** [self.result]: the stored answer if there is one, and otherwise the
    method, whose answer is stored when it returns.  The last component
    counts the queries sent. *)
Definition get_result (o : obj) : result R * obj * nat :=
  match cached_result o with
  | Some rv => (Ok rv, o, 0%nat)
  | None =>
      let '(rv, client) := SphinxPagination.result_ (self o) in
      let self' := with_client (self o) client in
      match rv with
      | Ok rv =>
          (Ok rv, mk self' (Some rv) (cached_count o), queries_of_result (self o))
      | Raise e =>
          (Raise e, mk self' None (cached_count o), queries_of_result (self o))
      end
  end.

(** [self.count] *)
Definition get_count (o : obj) : result Z * obj * nat :=
  match cached_count o with
  | Some c => (Ok c, o, 0%nat)
  | None =>
      let '(rv, o, n) := get_result o in
      match rv with
      | Ok rv =>
          (Ok (total_found rv),
           mk (self o) (cached_result o) (Some (total_found rv)), n)
      | Raise e => (Raise e, o, n)
      end
  end.

(** [self.items()]: the ids handed to [browse] *)
Definition items (o : obj) : result (list Z) * obj * nat :=
  let '(rv, o, n) := get_result o in
  (do rv <- rv; Ok (matches rv), o, n).

(** The reads of a pagination *)
Inductive read : Type := ReadResult | ReadCount | ReadItems.

(** What a read returned *)
Inductive answer : Type :=
| Answer (rv : R)
| Count (c : Z)
| Ids (ids : list Z)
| Raised (e : exn).

Definition do_read (rd : read) (o : obj) : answer * obj * nat :=
  match rd with
  | ReadResult =>
      let '(rv, o, n) := get_result o in
      (match rv with Ok rv => Answer rv | Raise e => Raised e end, o, n)
  | ReadCount =>
      let '(c, o, n) := get_count o in
      (match c with Ok c => Count c | Raise e => Raised e end, o, n)
  | ReadItems =>
      let '(ids, o, n) := items o in
      (match ids with Ok ids => Ids ids | Raise e => Raised e end, o, n)
  end.

(** The reads in order: their answers, the pagination at the end and the
    number of queries sent in all *)
Fixpoint do_reads (rds : list read) (o : obj) : list answer * obj * nat :=
  match rds with
  | [] => ([], o, 0%nat)
  | rd :: rest =>
      let '(a, o, n) := do_read rd o in
      let '(answers, o, m) := do_reads rest o in
      (a :: answers, o, (n + m)%nat)
  end.


End Client.

Arguments obj C R : clear implicits.

End SphinxCached.

(** ** make_crumbs *)

Module Crumbs.

(** What an attribute of a browse record holds: a text, or another record
    of the model, given by its id, [None] being the null record *)
Inductive attr : Type :=
| AText (s : string)
| ARef (target : option Z).

Record node : Type := mk_node {
  attrs : gmap string attr
}.

(** The records of the model by id.  The parent links are ids, so they may
    form a cycle. *)
Definition store : Type := gmap Z node.

Inductive error : Type :=
| AttributeError (name : string)
| RecursionError.

Definition bind {A B : Type} (m : error + A) (k : A -> error + B) : error + B :=
  match m with
  | inr a => k a
  | inl e => inl e
  end.

(** [not node] is false for a record and for a text that is not empty *)
Definition truthy (node : attr) : bool :=
  match node with
  | ARef (Some _) => true
  | ARef None => false
  | AText s => negb (String.eqb s "")
  end.

(** [getattr(node, name)] *)
Definition getattr (records : store) (node : attr) (name : string)
    : error + attr :=
  match node with
  | ARef (Some i) =>
      match records !! i with
      | Some n =>
          match attrs n !! name with
          | Some a => inr a
          | None => inl (AttributeError name)
          end
      | None => inl (AttributeError name)
      end
  | _ => inl (AttributeError name)
  end.

(** [node.id in root_ids] *)
Definition is_root (root_ids : list Z) (node : attr) : bool :=
  match node with
  | ARef (Some i) => bool_decide (i ∈ root_ids)
  | _ => false
  end.

(** [field_map], and [field_map.update(field_map_changes)] *)
Definition default_field_map : gmap string string :=
  {[ "parent_field" := "parent"; "uri_field" := "uri";
     "title_field" := "title" ]}.

Definition update (field_map : gmap string string)
    (changes : list (string * string)) : gmap string string :=
  foldl (fun m '(k, v) => <[k := v]> m) field_map changes.

(** [field_map[key]], for one of the three keys, which are always there *)
Definition field (field_map : gmap string string) (key : string) : string :=
  default "" (field_map !! key).

Section Request.
(** [url_for(endpoint, uri=...)] and [url_for(endpoint)] *)
Variable url_for : string -> option attr -> string.
Variable records : store.

Section Recurse.
Variables (endpoint : string) (max_depth : Z).
Variables (field_map : gmap string string) (root_ids : list Z).

(** [recurse(node, level)]; [fuel] bounds the calls still to come, and
    running out of it is the error [RecursionError].  [make_crumbs] hands
    it [max_depth], which is enough for every walk: this is [recurse] on a
    stack that is deep enough. *)
Fixpoint recurse (fuel : nat) (node : attr) (level : Z)
    : error + list (string * attr) :=
  if (max_depth <? level) || negb (truthy node) then inr []
  else
    match fuel with
    | O => inl RecursionError
    | S fuel =>
        bind (getattr records node (field field_map "uri_field")) (fun uri =>
        bind (getattr records node (field field_map "title_field")) (fun title =>
        let data_pair := (url_for endpoint (Some uri), title) in
        if is_root root_ids node then inr [data_pair]
        else
          bind (getattr records node (field field_map "parent_field"))
            (fun parent =>
          bind (recurse fuel parent (level + 1)) (fun above =>
          inr (data_pair :: above)))))
    end.

(** [recurse(node, level)] under the recursion limit of the interpreter:
    [frames] is the number of nested calls of [recurse] the stack has room
    for, the one being made included.  A call that finds no room raises
    [RuntimeError: maximum recursion depth exceeded], which is
    [RecursionError] here. *)
Fixpoint recurse_within (frames : nat) (node : attr) (level : Z)
    : error + list (string * attr) :=
  match frames with
  | O => inl RecursionError
  | S frames =>
      if (max_depth <? level) || negb (truthy node) then inr []
      else
        bind (getattr records node (field field_map "uri_field")) (fun uri =>
        bind (getattr records node (field field_map "title_field")) (fun title =>
        let data_pair := (url_for endpoint (Some uri), title) in
        if is_root root_ids node then inr [data_pair]
        else
          bind (getattr records node (field field_map "parent_field"))
            (fun parent =>
          bind (recurse_within frames parent (level + 1)) (fun above =>
          inr (data_pair :: above)))))
  end.

End Recurse.

(** [make_crumbs(browse_record, endpoint, add_home, max_depth,
    field_map_changes, root_ids)] *)
Definition make_crumbs (browse_record : attr) (endpoint : string)
    (add_home : bool) (max_depth : Z)
    (field_map_changes : option (list (string * string)))
    (root_ids : option (list Z)) : error + list (string * attr) :=
  let field_map :=
    match field_map_changes with
    | Some changes => update default_field_map changes
    | None => default_field_map
    end in
  let root_ids := default [] root_ids in
  bind (recurse endpoint max_depth field_map root_ids (Z.to_nat max_depth)
          browse_record 1) (fun items =>
  let items :=
    if add_home
    then items ++ [(url_for "nereid.website.home" None, AText "Home")]
    else items in
  inr (rev items)).

(** [make_crumbs] on a stack with room for [frames] nested calls of
    [recurse]; [make_crumbs] above is the case of a stack with room
    enough. *)
Definition make_crumbs_within (frames : nat) (browse_record : attr)
    (endpoint : string) (add_home : bool) (max_depth : Z)
    (field_map_changes : option (list (string * string)))
    (root_ids : option (list Z)) : error + list (string * attr) :=
  let field_map :=
    match field_map_changes with
    | Some changes => update default_field_map changes
    | None => default_field_map
    end in
  let root_ids := default [] root_ids in
  bind (recurse_within endpoint max_depth field_map root_ids frames
          browse_record 1) (fun items =>
  let items :=
    if add_home
    then items ++ [(url_for "nereid.website.home" None, AText "Home")]
    else items in
  inr (rev items)).

End Request.

(** A menu of three records, and two records that are each other's parent *)
Definition sample_record (uri title : string) (parent : option Z) : node :=
  mk_node {[ "uri" := AText uri; "title" := AText title;
             "parent" := ARef parent ]}.

Definition sample_store : store :=
  {[ 1 := sample_record "shop" "Shop" None;
     2 := sample_record "shoes" "Shoes" (Some 1);
     3 := sample_record "boots" "Boots" (Some 2);
     8 := sample_record "a" "A" (Some 9);
     9 := sample_record "b" "B" (Some 8) ]}.

Definition sample_url_for (endpoint : string) (uri : option attr) : string :=
  match uri with
  | Some (AText s) => (endpoint ++ "/" ++ s)%string
  | _ => endpoint
  end.

End Crumbs.

(** ** Redirects and url_for *)

Module Web.

Import Text.

(** [s.startswith(prefix)] *)
Fixpoint startswith (prefix s : list char) : bool :=
  match prefix, s with
  | [], _ => true
  | p :: prefix, c :: s => (p =? c)%N && startswith prefix s
  | _ :: _, [] => false
  end.

(** [s.replace(old, new)] for an [old] that is not empty: the matches are
    taken from the left and do not overlap.  [skip] counts the characters
    of the last match that are still to be passed over. *)
Fixpoint replace_from (skip : nat) (old new s : list char) : list char :=
  match s with
  | [] => []
  | c :: rest =>
      match skip with
      | S skip => replace_from skip old new rest
      | O =>
          if startswith old s
          then new ++ replace_from (length old - 1) old new rest
          else c :: replace_from 0 old new rest
      end
  end.

Definition replace (old new s : list char) : list char :=
  replace_from 0 old new s.

Definition http : list char := of_string "http://".
Definition https : list char := of_string "https://".

(** What a view gives back: the answer of the function it wraps, or a
    redirect *)
Inductive response (A : Type) : Type :=
| Handled (a : A)
| Redirect (location : list char).
Arguments Handled {A} a.
Arguments Redirect {A} location.

(** What the decorators read of the request and of the session *)
Record request : Type := mk_request {
  is_secure : bool;
  url : list char
}.

(** [secure(function)], called with [args] *)
Definition secure {Args A : Type} (function : Args -> A) (req : request)
    (args : Args) : response A :=
  if negb (is_secure req)
  then Redirect (replace http https (url req))
  else Handled (function args).

(** Values of the keyword arguments of [url_for] *)
Inductive pyval : Type :=
| PNone
| PBool (b : bool)
| PStr (s : list char)
| PPairs (l : list (list char * list char)).

Definition truth (v : pyval) : bool :=
  match v with
  | PNone => false
  | PBool b => b
  | PStr s => negb (bool_decide (s = []))
  | PPairs l => negb (bool_decide (l = []))
  end.

(** [values.pop(key, default)] *)
Definition pop (key : string) (dflt : pyval) (values : gmap string pyval)
    : pyval * gmap string pyval :=
  (default dflt (values !! key), delete key values).

Section UrlFor.
(** [ctx.url_adapter.build(endpoint, values, force_external, append_unknown)],
    [urllib.urlencode] of the pairs once their values are encoded, and
    [request.nereid_language.code] *)
Variable build : string -> gmap string pyval -> pyval -> bool -> list char.
Variable urlencode : list (list char * list char) -> list char.
Variable language_code : pyval.

(** [url_for(endpoint, **values)] *)
Definition url_for (endpoint : string) (values : gmap string pyval)
    : result (list char) :=
  let '(external, values) := pop "_external" (PBool false) values in
  let '(secure, values) := pop "_secure" (PBool false) values in
  let external := if truth secure then PBool true else external in
  let '(params, values) := pop "_params" PNone values in
  let values :=
    match values !! "language" with
    | Some _ => values
    | None => <["language" := language_code]> values
    end in
  let rv := build endpoint values external (negb (truth params)) in
  do rv <-
    (if truth params then
       match params with
       | PPairs l => Ok (rv ++ of_string "?" ++ urlencode l)
       | PStr _ => Raise ValueError
       | _ => Raise TypeError
       end
     else Ok rv);
  Ok (if truth secure then replace http https rv else rv).

(** [login_required(function)], called with [args]; the session is seen
    through the keys it holds. *)
Definition login_required {Args A V : Type} (function : Args -> A)
    (session : gmap string V) (req : request) (args : Args)
    : result (response A) :=
  match session !! "user" with
  | None =>
      do location <- url_for "nereid.website.login"
                       {[ "next" := PStr (url req) ]};
      Ok (Redirect location)
  | Some _ => Ok (Handled (function args))
  end.

End UrlFor.

End Web.

(** ** send_from_directory *)

Module Paths.

Import Text.

Definition slash : char := 47%N.
Definition dot : list char := [46%N].
Definition dotdot : list char := [46%N; 46%N].

(** [sep.join(pieces)] *)
Fixpoint join (sep : char) (pieces : list (list char)) : list char :=
  match pieces with
  | [] => []
  | [piece] => piece
  | piece :: pieces => piece ++ sep :: join sep pieces
  end.

(** One turn of the loop of [posixpath.normpath].  [new_comps] is kept
    with its last element first. *)
Definition normpath_step (initial_slashes : nat) (new_comps : list (list char))
    (comp : list char) : list (list char) :=
  if bool_decide (comp = []) || bool_decide (comp = dot) then new_comps
  else if negb (bool_decide (comp = dotdot))
          || (bool_decide (initial_slashes = 0%nat)
              && bool_decide (new_comps = []))
          || bool_decide (head new_comps = Some dotdot)
  then comp :: new_comps
  else tail new_comps.

(** [posixpath.normpath(path)] of the standard library *)
Definition normpath (path : list char) : list char :=
  if bool_decide (path = []) then dot
  else
    let initial_slashes :=
      if Web.startswith [slash] path then
        if Web.startswith [slash; slash] path
           && negb (Web.startswith [slash; slash; slash] path)
        then 2%nat else 1%nat
      else 0%nat in
    let comps := Host.split slash path in
    let new_comps := foldl (normpath_step initial_slashes) [] comps in
    let path := join slash (rev new_comps) in
    let path := replicate initial_slashes slash ++ path in
    if bool_decide (path = []) then dot else path.

(** [os.path.join(a, b)], which is [posixpath.join] on a POSIX system *)
Definition path_join (a b : list char) : list char :=
  if Web.startswith [slash] b then b
  else if bool_decide (a = []) || bool_decide (last a = Some slash)
  then a ++ b
  else a ++ slash :: b.

Inductive not_found : Type := NotFound.

Section Files.
(** [os.path.isfile], and [send_file(filename, conditional=True, **options)] *)
Context {Response : Type}.
Variable isfile : list char -> bool.
Variable send_file : list char -> Response.

(** [send_from_directory(directory, filename, **options)] *)
Definition send_from_directory (directory filename : list char)
    : not_found + Response :=
  let filename := normpath filename in
  if Web.startswith [slash] filename
     || Web.startswith (dotdot ++ [slash]) filename
  then inl NotFound
  else
    let filename := path_join directory filename in
    if negb (isfile filename) then inl NotFound
    else inr (send_file filename).

End Files.

End Paths.

(** ** Vocabulary of the properties *)

(** The page numbers among what [iter_pages] yielded *)
Definition yielded_numbers (out : list (option Z)) : list Z := omap id out.

(** The last page number yielded in [out], or [d] when there is none *)
Definition last_yielded (d : Z) (out : list (option Z)) : Z :=
  foldl (fun acc o => default acc o) d out.

(** The statements a trace sent to the cursor *)
Definition executed (t : list call) : list string :=
  omap (fun c => match c with CursorExecute sql => Some sql | _ => None end) t.

(** The characters of a slug: digits, lower-case letters, the underscore
    and the hyphen *)
Definition is_slug_char (c : Text.char) : bool :=
  ((48 <=? c) && (c <=? 57) || (c =? 95) || (97 <=? c) && (c <=? 122)
   || (c =? 45))%N.

(** [old] occurs in [s] *)
Definition occurs (old s : list Text.char) : Prop :=
  exists pre post, s = pre ++ old ++ post.

(** A component that stays: not empty, not [.], not [..], without slash *)
Definition plain_component (comp : list Text.char) : Prop :=
  comp <> [] /\ comp <> Paths.dot /\ comp <> Paths.dotdot
  /\ Paths.slash ∉ comp.

(** * Properties *)

(** ** Page counts *)

Section PageCount.
Import BasePagination.

Lemma int_of_integral (z : Z) : Py.int (inject_Z z) = z.
Proof.
  unfold Py.int.
  destruct (Qle_bool 0 (inject_Z z)).
  - apply Qfloor_Z.
  - apply Qceiling_Z.
Qed.

(** The ceiling of the quotient of two integers, in integers *)
Lemma ceiling_of_quotient (c p : Z) :
  0 < p -> Qceiling (inject_Z c / inject_Z p) = - ((- c) / p).
Proof.
  intros Hp. destruct p as [|p|p]; try lia.
  unfold Qceiling, Qfloor, Qdiv, Qinv, Qmult, Qopp, inject_Z; simpl.
  rewrite Z.mul_1_r. reflexivity.
Qed.

Lemma truediv_positive (c p : Z) :
  0 < p -> Py.truediv (Py.float c) (Py.float p) = Ok (inject_Z c / inject_Z p)%Q.
Proof.
  intros Hp. unfold Py.truediv, Py.float.
  destruct (Qeq_bool (inject_Z p) 0) eqn:E; [|reflexivity].
  apply Qeq_bool_eq in E. unfold Qeq in E. simpl in E. lia.
Qed.

Lemma quotient_ceiling (c p : Z) :
  0 < p ->
  Py.truediv (Py.float c) (Py.float p) = Ok (inject_Z c / inject_Z p)%Q
  /\ Py.int (Py.ceil (inject_Z c / inject_Z p)) = - ((- c) / p).
Proof.
  intros Hp. split; [by apply truediv_positive|].
  unfold Py.ceil. rewrite int_of_integral. by apply ceiling_of_quotient.
Qed.

Lemma ceiling_bounds (c p : Z) :
  0 < p ->
  c <= - ((- c) / p) * p /\ (- ((- c) / p) - 1) * p < c.
Proof.
  intros Hp.
  pose proof (Z.div_mod (- c) p ltac:(lia)) as Hdm.
  pose proof (Z.mod_pos_bound (- c) p Hp) as Hb.
  nia.
Qed.

Lemma pages_value {P : Type} `{Paginated P} (self : P) :
  0 < per_page self ->
  pages self = Ok (- ((- count self) / per_page self)).
Proof.
  intros Hp. unfold pages.
  destruct (quotient_ceiling (count self) (per_page self) Hp) as [-> Hv].
  simpl. by rewrite Hv.
Qed.

End PageCount.

(** ** The binary64 quotient below 2^53 *)

Section Binary64Exact.

Lemma digits2_pos_size (p : positive) : digits2_pos p = Pos.size p.
Proof. induction p; simpl; congruence. Qed.

(** A positive number of [d] digits lies in [[2^(d-1), 2^d)]. *)
Lemma digits2_bounds (p : positive) :
  2 ^ (Z.pos (digits2_pos p) - 1) <= Z.pos p < 2 ^ Z.pos (digits2_pos p).
Proof.
  rewrite digits2_pos_size.
  pose proof (Pos.size_gt p) as Hgt. pose proof (Pos.size_le p) as Hle.
  apply Pos2Z.pos_lt_pos in Hgt. apply Pos2Z.pos_le_pos in Hle.
  rewrite Pos2Z.inj_pow in Hgt, Hle.
  replace (Z.pos (Pos.size p)) with (Z.succ (Z.pos (Pos.size p) - 1)) in Hle
    by lia.
  rewrite Z.pow_succ_r in Hle by lia.
  lia.
Qed.

Lemma digits2_unique (p : positive) (d : Z) :
  2 ^ (d - 1) <= Z.pos p < 2 ^ d -> Z.pos (digits2_pos p) = d.
Proof.
  intros [Hlo Hhi]. destruct (digits2_bounds p) as [Hlo' Hhi'].
  assert (0 < d).
  { destruct (Z.ltb_spec 0 d) as [|Hd]; [assumption|].
    rewrite Z.pow_neg_r in Hlo by lia.
    assert (2 ^ d <= 2 ^ 0) by (apply Z.pow_le_mono_r; lia).
    simpl in *. lia. }
  assert (d - 1 < Z.pos (digits2_pos p))
    by (apply (Z.pow_lt_mono_r_iff 2); lia).
  assert (Z.pos (digits2_pos p) - 1 < d)
    by (apply (Z.pow_lt_mono_r_iff 2); lia).
  lia.
Qed.

Lemma shifted_left (p k : positive) :
  Z.pos (Pos.iter xO p k) = Z.pos p * 2 ^ Z.pos k.
Proof.
  change (Pos.iter xO p k) with (shift_pos k p).
  rewrite shift_pos_correct. change (Zpower_pos 2 k) with (2 ^ Z.pos k). lia.
Qed.

(** A mantissa of 53 digits with no rounding bits is kept as it is. *)
Lemma round_aux_canonical (m : positive) (e : Z) :
  Z.pos (digits2_pos m) = 53 -> -1074 <= e <= 971 ->
  binary_round_aux 53 1024 false (Z.pos m) e loc_Exact = S754_finite false m e.
Proof.
  intros Hd He.
  assert (Hf : fexp 53 1024 (53 + e) - e = 0) by (unfold fexp, emin; lia).
  unfold binary_round_aux, shr_fexp. simpl Zdigits2. rewrite Hd, Hf. simpl.
  rewrite Hd, Hf. simpl.
  change (1024 - 53) with 971.
  destruct (Z.leb_spec e 971); [reflexivity | lia].
Qed.

(** [float(n)] for a positive integer below 2^53: the integer itself, on
    a mantissa of 53 digits. *)
Lemma float_canonical (n : Z) :
  0 < n < 2 ^ 53 ->
  exists (m : positive) (e : Z),
    Binary64.float n = Ok (S754_finite false m e)
    /\ Z.pos (digits2_pos m) = 53
    /\ -52 <= e <= 0
    /\ Z.pos m = n * 2 ^ (- e).
Proof.
  intros Hn. destruct n as [|pn|pn]; try lia.
  destruct (digits2_bounds pn) as [Hlo Hhi].
  set (d := Z.pos (digits2_pos pn)) in *.
  assert (Hd : 1 <= d <= 53).
  { split; [subst d; lia|].
    assert (d - 1 < 53) by (apply (Z.pow_lt_mono_r_iff 2); lia). lia. }
  unfold Binary64.float, Binary64.prec, Binary64.emax, binary_normalize,
    binary_round, shl_align.
  fold d.
  assert (Hf : fexp 53 1024 (d + 0) = d - 53) by (unfold fexp, emin; lia).
  rewrite Hf.
  destruct (d - 53 - 0) as [|k|k] eqn:Ek; try lia.
  - exists pn, 0. rewrite round_aux_canonical by (fold d; lia).
    repeat split; try (fold d; lia).
  - assert (Hm : Z.pos (Pos.iter xO pn k) = Z.pos pn * 2 ^ (53 - d)).
    { rewrite shifted_left. f_equal. f_equal. lia. }
    assert (Hdm : Z.pos (digits2_pos (Pos.iter xO pn k)) = 53).
    { apply digits2_unique. rewrite Hm.
      assert (E1 : 2 ^ (53 - 1) = 2 ^ (d - 1) * 2 ^ (53 - d))
        by (rewrite <- Z.pow_add_r by lia; f_equal; lia).
      assert (E2 : 2 ^ 53 = 2 ^ d * 2 ^ (53 - d))
        by (rewrite <- Z.pow_add_r by lia; f_equal; lia).
      rewrite E1, E2.
      assert (0 < 2 ^ (53 - d)) by (apply Z.pow_pos_nonneg; lia).
      split.
      - apply Z.mul_le_mono_nonneg_r; lia.
      - apply Z.mul_lt_mono_pos_r; lia. }
    exists (Pos.iter xO pn k), (d - 53).
    rewrite round_aux_canonical by (assumption || lia).
    repeat split; try lia.
    rewrite Hm. f_equal. f_equal. lia.
Qed.

(** The last step of [binary_round_aux]: a rounded mantissa that reached
    2^53 is halved and the exponent goes up by one. *)
Lemma round_aux_finish (m1 e1 : Z) :
  2 ^ 52 <= m1 <= 2 ^ 53 -> -1074 <= e1 <= 970 ->
  exists (m : positive) (e2 : Z),
    (let '(mrs, e2) := shr_fexp 53 1024 m1 e1 loc_Exact in
     match shr_m mrs with
     | 0 => S754_zero false
     | Z.pos m =>
         if e2 <=? 1024 - 53 then S754_finite false m e2
         else S754_infinity false
     | Z.neg _ => S754_nan
     end) = S754_finite false m e2
    /\ e1 <= e2 /\ Z.pos m * 2 ^ (e2 - e1) = m1.
Proof.
  intros Hm He. change (1024 - 53) with 971.
  destruct (Z.eq_dec m1 (2 ^ 53)) as [-> | Hne].
  - exists (2 ^ 52)%positive, (e1 + 1).
    assert (Hf : fexp 53 1024 (54 + e1) - e1 = 1) by (unfold fexp, emin; lia).
    unfold shr_fexp. change (Zdigits2 (2 ^ 53)) with 54. rewrite Hf. simpl.
    destruct (Z.leb_spec (e1 + 1) 971); [|lia].
    replace (e1 + 1 - e1) with 1 by lia. repeat split; lia.
  - destruct m1 as [|pm|pm]; try lia.
    assert (Hd : Z.pos (digits2_pos pm) = 53) by (apply digits2_unique; lia).
    assert (Hf : fexp 53 1024 (53 + e1) - e1 = 0) by (unfold fexp, emin; lia).
    exists pm, e1. unfold shr_fexp. simpl Zdigits2. rewrite Hd, Hf. simpl.
    destruct (Z.leb_spec e1 971); [|lia].
    rewrite Z.sub_diag. repeat split; lia.
Qed.

Lemma loc_of_record_of_loc (m : Z) (loc : location) :
  loc_of_shr_record (shr_record_of_loc m loc) = loc
  /\ shr_m (shr_record_of_loc m loc) = m.
Proof. by destruct loc as [|[]]. Qed.

Lemma round_nearest_even_bounds (m : Z) (loc : location) :
  m <= round_nearest_even m loc <= m + 1
  /\ (round_nearest_even m loc = m + 1 -> loc <> loc_Exact)
  /\ (loc = loc_Inexact Gt -> round_nearest_even m loc = m + 1).
Proof.
  destruct loc as [|[]]; simpl; try destruct (Z.even m);
    repeat split; intros; try lia; try discriminate.
Qed.

(** Rounding a quotient of 53 or 54 digits: [m1] is the rounded mantissa
    at exponent [e1], before the last step. *)
Lemma round_aux_quotient (q e : Z) (loc : location) :
  2 ^ 52 <= q < 2 ^ 54 -> -1074 <= e <= 960 ->
  exists (m : positive) (e2 m1 e1 : Z),
    binary_round_aux 53 1024 false q e loc = S754_finite false m e2
    /\ e1 <= e2 /\ Z.pos m * 2 ^ (e2 - e1) = m1
    /\ ((q < 2 ^ 53 /\ e1 = e /\ q <= m1 <= q + 1
         /\ (m1 = q + 1 -> loc <> loc_Exact))
        \/ (2 ^ 53 <= q /\ e1 = e + 1 /\ q / 2 <= m1 <= q / 2 + 1
            /\ (m1 = q / 2 + 1 -> Z.odd q = true)
            /\ (Z.odd q = true -> loc <> loc_Exact -> m1 = q / 2 + 1))).
Proof.
  intros Hq He. destruct q as [|pq|pq]; try lia.
  unfold binary_round_aux.
  destruct (Z.ltb_spec (Z.pos pq) (2 ^ 53)) as [Hlt | Hge].
  - assert (Hd : Z.pos (digits2_pos pq) = 53) by (apply digits2_unique; lia).
    assert (Hf : fexp 53 1024 (53 + e) - e = 0) by (unfold fexp, emin; lia).
    unfold shr_fexp at 1. simpl Zdigits2. rewrite Hd, Hf. unfold shr.
    destruct (loc_of_record_of_loc (Z.pos pq) loc) as [-> ->].
    destruct (round_nearest_even_bounds (Z.pos pq) loc) as (Hb & Hup & _).
    destruct (round_aux_finish (round_nearest_even (Z.pos pq) loc) e)
      as (m & e2 & Hfin & He2 & Hval); [lia | lia |].
    exists m, e2, (round_nearest_even (Z.pos pq) loc), e.
    split; [exact Hfin|]. split; [exact He2|]. split; [exact Hval|].
    left. repeat split; try lia. exact Hup.
  - assert (Hd : Z.pos (digits2_pos pq) = 54) by (apply digits2_unique; lia).
    assert (Hf : fexp 53 1024 (54 + e) - e = 1) by (unfold fexp, emin; lia).
    unfold shr_fexp at 1. simpl Zdigits2. rewrite Hd, Hf. unfold shr.
    change (SpecFloat.iter_pos shr_1 1 (shr_record_of_loc (Z.pos pq) loc))
      with (shr_1 (shr_record_of_loc (Z.pos pq) loc)).
    destruct pq as [pq|pq|]; try lia.
    + (* odd quotient *)
      set (loc' := loc_of_shr_record (shr_1 (shr_record_of_loc (Z.pos pq~1) loc))).
      assert (Hm : shr_m (shr_1 (shr_record_of_loc (Z.pos pq~1) loc)) = Z.pos pq)
        by (by destruct loc as [|[]]).
      assert (Hloc : loc <> loc_Exact -> loc' = loc_Inexact Gt)
        by (subst loc'; destruct loc as [|[]]; simpl; congruence).
      rewrite Hm.
      destruct (round_nearest_even_bounds (Z.pos pq) loc') as (Hb & Hup & Hgt).
      destruct (round_aux_finish (round_nearest_even (Z.pos pq) loc') (e + 1))
        as (m & e2 & Hfin & He2 & Hval); [lia | lia |].
      exists m, e2, (round_nearest_even (Z.pos pq) loc'), (e + 1).
      split; [exact Hfin|]. split; [exact He2|]. split; [exact Hval|].
      right. replace (Z.pos pq~1 / 2) with (Z.pos pq)
        by (apply (Z.div_unique _ 2 _ 1); lia).
      repeat split; try lia. intros _ Hne. apply Hgt, Hloc, Hne.
    + (* even quotient *)
      set (loc' := loc_of_shr_record (shr_1 (shr_record_of_loc (Z.pos pq~0) loc))).
      assert (Hm : shr_m (shr_1 (shr_record_of_loc (Z.pos pq~0) loc)) = Z.pos pq)
        by (by destruct loc as [|[]]).
      assert (Hloc : round_nearest_even (Z.pos pq) loc' = Z.pos pq)
        by (subst loc'; by destruct loc as [|[]]).
      rewrite Hm, Hloc.
      destruct (round_aux_finish (Z.pos pq) (e + 1))
        as (m & e2 & Hfin & He2 & Hval); [lia | lia |].
      exists m, e2, (Z.pos pq), (e + 1).
      split; [exact Hfin|]. split; [exact He2|]. split; [exact Hval|].
      right. replace (Z.pos pq~0 / 2) with (Z.pos pq)
        by (apply (Z.div_unique _ 2 _ 0); lia).
      repeat split; try lia; discriminate.
Qed.

Lemma new_location_exact (n r : Z) :
  new_location n r = loc_Exact <-> r = 0.
Proof.
  unfold new_location, new_location_even, new_location_odd.
  destruct (Z.even n); destruct (Z.eqb_spec r 0); split;
    intros; try congruence; try discriminate.
Qed.

(** The division of two mantissas of 53 digits: the quotient of
    [mc * 2^53] by [mp], with the remainder as rounding information. *)
Lemma div_canonical (mc mp : positive) (ec ep : Z) :
  Z.pos (digits2_pos mc) = 53 -> Z.pos (digits2_pos mp) = 53 ->
  -52 <= ec <= 0 -> -52 <= ep <= 0 ->
  SFdiv 53 1024 (S754_finite false mc ec) (S754_finite false mp ep)
  = binary_round_aux 53 1024 false (Z.pos mc * 2 ^ 53 / Z.pos mp)
      (ec - ep - 53)
      (new_location (Z.pos mp) ((Z.pos mc * 2 ^ 53) mod Z.pos mp)).
Proof.
  intros Hdc Hdp Hec Hep. unfold SFdiv, SFdiv_core_binary.
  simpl Zdigits2. rewrite Hdc, Hdp.
  assert (He : Z.min (fexp 53 1024 (53 + ec - (53 + ep))) (ec - ep)
               = ec - ep - 53) by (unfold fexp, emin; lia).
  rewrite He.
  replace (ec - ep - (ec - ep - 53)) with 53 by lia.
  cbv iota. rewrite Z.shiftl_mul_pow2 by lia.
  unfold Z.div, Z.modulo.
  destruct (Z.div_eucl (Z.pos mc * 2 ^ 53) (Z.pos mp)) as [q r].
  reflexivity.
Qed.

(** Where the quotient of the mantissas lies, in units of [1 / T], when
    [K] is the ceiling of [c / p]. *)
Lemma quotient_window (c p K A B T mp q r : Z) :
  0 < p -> 0 < A -> 0 < B -> 0 < T ->
  T * B = 2 ^ 53 * A -> mp = p * B -> mp < 2 ^ 53 ->
  c * A * 2 ^ 53 = q * mp + r -> 0 <= r < mp ->
  c <= K * p -> (K - 1) * p < c ->
  (K - 1) * T + 1 <= q <= K * T
  /\ (r <> 0 -> q < K * T)
  /\ (q = (K - 1) * T + 1 -> r <> 0).
Proof.
  intros Hp HA HB HT HTB -> Hmp HQ Hr Hle Hlt.
  assert (HQ' : c * (T * B) = q * (p * B) + r) by (rewrite HTB; lia).
  assert (Hup : q * (p * B) + r <= K * T * (p * B)).
  { rewrite <- HQ'.
    replace (K * T * (p * B)) with (K * p * (T * B)) by ring.
    apply Z.mul_le_mono_nonneg_r; lia. }
  assert (Hlo : (K - 1) * T * (p * B) + 2 ^ 53 * A <= q * (p * B) + r).
  { rewrite <- HQ', <- HTB.
    replace ((K - 1) * T * (p * B) + T * B)
      with (((K - 1) * p + 1) * (T * B)) by ring.
    apply Z.mul_le_mono_nonneg_r; lia. }
  assert (H53 : 2 ^ 53 <= 2 ^ 53 * A) by nia.
  set (M := p * B) in *.
  repeat split.
  - assert ((K - 1) * T * M < q * M) by lia.
    assert ((K - 1) * T < q) by (apply (Z.mul_lt_mono_pos_r M); lia). lia.
  - assert (q * M <= K * T * M) by lia.
    apply (Z.mul_le_mono_pos_r _ _ M); lia.
  - intros Hr0. assert (q * M < K * T * M) by lia.
    apply (Z.mul_lt_mono_pos_r M); lia.
  - intros -> ->. nia.
Qed.

(** [int(ceil(x))] of a float whose mantissa [m1] at exponent [e1] lies in
    the window of [K]. *)
Lemma int_ceil_value (m : positive) (e2 e1 K m1 : Z) :
  e1 <= e2 -> e1 <= 0 -> Z.pos m * 2 ^ (e2 - e1) = m1 ->
  (K - 1) * 2 ^ (- e1) < m1 <= K * 2 ^ (- e1) ->
  Binary64.int_ceil (S754_finite false m e2) = Ok K.
Proof.
  intros He Hneg Hm [Hlo Hhi]. unfold Binary64.int_ceil. f_equal.
  assert (HF : 0 < 2 ^ (e2 - e1)) by (apply Z.pow_pos_nonneg; lia).
  destruct (Z.leb_spec 0 e2) as [Hpos | Hlt].
  - assert (HD : 0 < 2 ^ (- e1)) by (apply Z.pow_pos_nonneg; lia).
    assert (Hsplit : 2 ^ (e2 - e1) = 2 ^ e2 * 2 ^ (- e1))
      by (rewrite <- Z.pow_add_r by lia; f_equal; lia).
    rewrite Hsplit in Hm. set (D := 2 ^ (- e1)) in *.
    set (v := Z.pos m * 2 ^ e2).
    assert (Hv : v * D = m1) by (subst v; lia).
    assert ((K - 1) < v) by (apply (Z.mul_lt_mono_pos_r D); lia).
    assert (v <= K) by (apply (Z.mul_le_mono_pos_r _ _ D); lia).
    lia.
  - assert (HD : 0 < 2 ^ (- e2)) by (apply Z.pow_pos_nonneg; lia).
    assert (Hsplit : 2 ^ (- e1) = 2 ^ (- e2) * 2 ^ (e2 - e1))
      by (rewrite <- Z.pow_add_r by lia; f_equal; lia).
    rewrite Hsplit in Hlo, Hhi.
    set (D := 2 ^ (- e2)) in *. set (F := 2 ^ (e2 - e1)) in *.
    assert ((K - 1) * D < Z.pos m)
      by (apply (Z.mul_lt_mono_pos_r F); lia).
    assert (Z.pos m <= K * D)
      by (apply (Z.mul_le_mono_pos_r _ _ F); lia).
    change (- Z.neg m) with (Z.pos m). change (Z.neg m) with (- Z.pos m).
    assert (- Z.pos m / D = - K); [|lia].
    symmetry. apply (Z.div_unique_pos _ _ _ (K * D - Z.pos m)); lia.
Qed.

(** Below 2^53 the binary64 expression [int(ceil(count / float(per_page)))]
    is the ceiling of the exact quotient. *)
Theorem binary64_pages_exact (count per_page : Z) :
  0 <= count < 2 ^ 53 -> 0 < per_page < 2 ^ 53 ->
  Binary64.pages count per_page = Ok (- ((- count) / per_page)).
Proof.
  intros Hc Hp. unfold Binary64.pages.
  destruct (float_canonical per_page Hp) as (mp & ep & -> & Hdp & Hep & Hmp).
  destruct (Z.eq_dec count 0) as [-> | Hc0].
  { simpl. rewrite Z.div_0_l by lia. reflexivity. }
  destruct (float_canonical count ltac:(lia))
    as (mc & ec & -> & Hdc & Hec & Hmc).
  change (Binary64.int_ceil
            (SFdiv 53 1024 (S754_finite false mc ec) (S754_finite false mp ep))
          = Ok (- (- count / per_page))).
  rewrite div_canonical by assumption.
  destruct (digits2_bounds mc) as [Hmc_lo Hmc_hi].
  destruct (digits2_bounds mp) as [Hmp_lo Hmp_hi].
  rewrite Hdc in Hmc_lo, Hmc_hi. rewrite Hdp in Hmp_lo, Hmp_hi.
  change (53 - 1) with 52 in *.
  set (q := Z.pos mc * 2 ^ 53 / Z.pos mp).
  set (r := (Z.pos mc * 2 ^ 53) mod Z.pos mp).
  assert (HQ : Z.pos mc * 2 ^ 53 = q * Z.pos mp + r)
    by (subst q r; rewrite (Z.mul_comm _ (Z.pos mp)); apply Z.div_mod; lia).
  assert (Hr : 0 <= r < Z.pos mp) by (subst r; apply Z.mod_pos_bound; lia).
  assert (Hq : 2 ^ 52 <= q < 2 ^ 54).
  { subst q. split.
    - apply Z.div_le_lower_bound; [lia|].
      change (2 ^ 53) with (2 * 2 ^ 52) in *. nia.
    - apply Z.div_lt_upper_bound; [lia|].
      change (2 ^ 54) with (4 * 2 ^ 52). change (2 ^ 53) with (2 * 2 ^ 52) in *.
      nia. }
  set (K := - (- count / per_page)).
  destruct (ceiling_bounds count per_page ltac:(lia)) as [HK_hi HK_lo].
  fold K in HK_hi, HK_lo.
  set (E := 53 + ep - ec).
  assert (HE : 1 <= E) by (subst E; lia).
  assert (HA : 0 < 2 ^ (- ec)) by (apply Z.pow_pos_nonneg; lia).
  assert (HB : 0 < 2 ^ (- ep)) by (apply Z.pow_pos_nonneg; lia).
  assert (HT : 0 < 2 ^ E) by (apply Z.pow_pos_nonneg; lia).
  assert (HTB : 2 ^ E * 2 ^ (- ep) = 2 ^ 53 * 2 ^ (- ec))
    by (rewrite <- !Z.pow_add_r by lia; f_equal; subst E; lia).
  destruct (quotient_window count per_page K (2 ^ (- ec)) (2 ^ (- ep)) (2 ^ E)
              (Z.pos mp) q r)
    as ([Hq_lo Hq_hi] & Hq_strict & Hq_edge); try assumption; try lia.
  destruct (round_aux_quotient q (ec - ep - 53)
              (new_location (Z.pos mp) r) Hq ltac:(lia))
    as (m & e2 & m1 & e1 & -> & He12 & Hm1 & Hcase).
  destruct Hcase as [(Hsmall & -> & Hm1b & Hm1up)
                    | (Hbig & -> & Hm1b & Hm1up & Hm1odd)].
  - apply (int_ceil_value m e2 (ec - ep - 53) K m1); try assumption; try lia.
    replace (- (ec - ep - 53)) with E by (subst E; lia).
    split; [lia|].
    destruct (Z.eq_dec m1 (q + 1)) as [Heq | Hne]; [|lia].
    apply Hm1up in Heq. rewrite new_location_exact in Heq.
    specialize (Hq_strict Heq). lia.
  - apply (int_ceil_value m e2 (ec - ep - 53 + 1) K m1); try assumption;
      try lia.
    replace (- (ec - ep - 53 + 1)) with (E - 1) by (subst E; lia).
    assert (HT1 : 2 ^ E = 2 * 2 ^ (E - 1)).
    { replace E with (Z.succ (E - 1)) at 1 by lia.
      rewrite Z.pow_succ_r by lia. reflexivity. }
    rewrite HT1 in *. set (T1 := 2 ^ (E - 1)) in *.
    pose proof (Z.div_mod q 2 ltac:(lia)) as Hdiv.
    pose proof (Z.mod_pos_bound q 2 ltac:(lia)) as Hmod.
    assert (Hodd : Z.odd q = true <-> q mod 2 = 1).
    { rewrite Zodd_mod. destruct (Z.eqb_spec (q mod 2) 1); split;
        intros; try lia; try discriminate; reflexivity. }
    split.
    + destruct (Z.eq_dec (q / 2) ((K - 1) * T1)) as [Hedge | Hne]; [|lia].
      assert (Hq1 : q = (K - 1) * (2 * T1) + 1) by lia.
      assert (Hr0 : r <> 0) by (apply Hq_edge; exact Hq1).
      assert (Hloc : new_location (Z.pos mp) r <> loc_Exact)
        by (rewrite new_location_exact; exact Hr0).
      assert (Z.odd q = true) by (apply Hodd; lia).
      rewrite Hm1odd by assumption. lia.
    + destruct (Z.eq_dec m1 (q / 2 + 1)) as [Heq | Hne]; [|lia].
      apply Hm1up, Hodd in Heq. lia.
Qed.

(** So the exact quotient of the embedding is what the code computes, for
    every count and page size below 2^53. *)
Corollary pages_is_binary64 {P : Type} `{BasePagination.Paginated P} (self : P) :
  0 <= BasePagination.count self < 2 ^ 53 ->
  0 < BasePagination.per_page self < 2 ^ 53 ->
  BasePagination.pages self
  = Binary64.pages (BasePagination.count self) (BasePagination.per_page self).
Proof.
  intros Hc Hp. rewrite binary64_pages_exact by assumption.
  apply pages_value. lia.
Qed.

End Binary64Exact.

(** ** The counts of a page *)

Section PageCountClaims.
Import BasePagination.

(** C1, as stated, fails: the quotient is a binary64 number.  A count of
    2^53 + 1 on pages of one item is rounded to 2^53 before the division,
    so that the last item falls on no page; and a page size that no double
    holds makes [pages] raise, also for a count of 0. *)
Lemma pages_rounds_from_2_53 :
  let self := BasePagination.mk_numbers 1 1 (2 ^ 53 + 1) in
  let wide := BasePagination.mk_numbers 1 (2 ^ 1024) 0 in
  0 < per_page self
  /\ Binary64.pages (count self) (per_page self) = Ok (2 ^ 53)
  /\ ~ (exists n : Z,
          Binary64.pages (count self) (per_page self) = Ok n
          /\ count self <= n * per_page self
          /\ (n - 1) * per_page self < count self)
  /\ 0 < per_page wide /\ count wide = 0
  /\ Binary64.pages (count wide) (per_page wide) = Raise OverflowError.
Proof.
  intros self wide.
  assert (Hpages : Binary64.pages (count self) (per_page self) = Ok (2 ^ 53))
    by (vm_compute; reflexivity).
  split; [reflexivity|]. split; [exact Hpages|]. split.
  - intros (n & Hn & Hle & _). rewrite Hpages in Hn. injection Hn as <-.
    revert Hle. vm_compute. intros Hle. apply Hle. reflexivity.
  - split; [reflexivity|]. split; [reflexivity|]. vm_compute. reflexivity.
Qed.

(** C1, amended.  With [0 < per_page < 2^53] and [0 <= count < 2^53],
    where a double holds both numbers as they are, [pages] is the ceiling
    of [count / per_page]: the least integer [n] with
    [count <= n * per_page].  It is 0 when [count] is 0.  The exact
    quotient of [BasePagination.pages] is that same [n]. *)
Theorem pages_is_ceiling {P : Type} `{Paginated P} (self : P) :
  0 < per_page self < 2 ^ 53 -> 0 <= count self < 2 ^ 53 ->
  exists n : Z,
    Binary64.pages (count self) (per_page self) = Ok n
    /\ count self <= n * per_page self
    /\ (n - 1) * per_page self < count self
    /\ (count self = 0 -> n = 0)
    /\ pages self = Ok n.
Proof.
  intros Hp Hc. exists (- ((- count self) / per_page self)).
  split; [by apply binary64_pages_exact|].
  destruct (ceiling_bounds (count self) (per_page self) (proj1 Hp))
    as [Hle Hlt].
  repeat split; try assumption.
  - intros ->. simpl. rewrite Z.div_0_l by lia. reflexivity.
  - apply pages_value. exact (proj1 Hp).
Qed.

Lemma pages_is_ceiling_witness :
  let p := BasePagination.init 1 3 (Some [1; 2; 3; 4; 5; 6; 7; 8; 9; 10]) in
  0 < per_page p < 2 ^ 53 /\ 0 <= count p < 2 ^ 53
  /\ exists n : Z,
       Binary64.pages (count p) (per_page p) = Ok n
       /\ count p <= n * per_page p
       /\ (n - 1) * per_page p < count p
       /\ (count p = 0 -> n = 0)
       /\ pages p = Ok n.
Proof.
  intros p.
  assert (Hper : 0 < per_page p < 2 ^ 53) by (split; reflexivity).
  assert (Hcount : 0 <= count p < 2 ^ 53) by (split; [discriminate | reflexivity]).
  split; [exact Hper|]. split; [exact Hcount|].
  exact (pages_is_ceiling p Hper Hcount).
Defined.

(** The examples of the class docstring *)
Example docstring_empty :
  let p := BasePagination.init 1 3 (Some (@nil Z)) in
  (count p, pages p, begin_count p, end_count p) = (0, Ok 0, 0, 0).
Proof. reflexivity. Qed.

Example docstring_range_1_10 :
  let p := BasePagination.init 1 3 (Some (seqZ 1 9)) in
  (count p, pages p, begin_count p, end_count p) = (9, Ok 3, 1, 3).
Proof. reflexivity. Qed.

(** The exact quotient and the binary64 quotient give the same number of
    pages on a grid of small operands, signs and zero included; the case
    of all operands below 2^53 is [binary64_pages_exact]. *)
Lemma binary64_agrees_on_grid :
  forallb (fun p => forallb (Binary64.agree p) (seqZ (-40) 340)) (seqZ (-5) 60)
  = true.
Proof. vm_compute. reflexivity. Qed.

(** C4.  [begin_count] and [end_count] never exceed [count], and the first
    page of a pagination that is not empty begins at 1. *)
Theorem begin_end_count_bounded {P : Type} `{Paginated P} (self : P) :
  1 <= page self -> 0 < per_page self ->
  begin_count self <= count self
  /\ end_count self <= count self
  /\ (page self = 1 -> 0 < count self -> begin_count self = 1).
Proof.
  intros Hpage Hper. unfold end_count, begin_count, Py.min.
  repeat split.
  - destruct (_ <=? _) eqn:E; lia.
  - destruct (_ + per_page self - 1 <=? _) eqn:E; lia.
  - intros -> Hc. destruct (_ <=? _) eqn:E; lia.
Qed.

Lemma begin_end_count_bounded_witness :
  let p := BasePagination.init 1 3 (Some (seqZ 1 7)) in
  1 <= page p /\ 0 < per_page p
  /\ begin_count p <= count p /\ end_count p <= count p
  /\ (page p = 1 -> 0 < count p -> begin_count p = 1).
Proof.
  intros p. split; [simpl; lia|]. split; [simpl; lia|].
  apply (begin_end_count_bounded p); simpl; lia.
Defined.

End PageCountClaims.

(** ** iter_pages *)

Section IterPages.
Import BasePagination.
Context {P : Type} `{Paginated P}.
Variables (self : P) (npages : Z).
Variables (left_edge left_current right_current right_edge : Z).

Local Abbreviation loop := (iter_pages_loop self npages left_edge left_current
                    right_current right_edge).
Local Abbreviation is_shown := (shown self npages left_edge left_current
                        right_current right_edge).

Lemma loop_numbers (nums : list Z) (last : Z) :
  yielded_numbers (loop nums last) = List.filter is_shown nums.
Proof.
  revert last. induction nums as [|num rest IH]; intros last; simpl.
  - reflexivity.
  - destruct (is_shown num).
    + destruct (last + 1 =? num); simpl; unfold yielded_numbers in *;
        simpl; by rewrite IH.
    + apply IH.
Qed.

Lemma last_yielded_app (d : Z) (l1 l2 : list (option Z)) :
  last_yielded d (l1 ++ l2) = last_yielded (last_yielded d l1) l2.
Proof. unfold last_yielded. apply foldl_app. Qed.

(** Every gap marker stands right before a number that does not follow the
    number yielded before it; [last] is what the loop starts from. *)
Lemma loop_markers (nums : list Z) (last : Z) (pre post : list (option Z)) :
  loop nums last = pre ++ None :: post ->
  exists (k : Z) (post' : list (option Z)),
    post = Some k :: post' /\ k <> last_yielded last pre + 1.
Proof.
  revert last pre. induction nums as [|num rest IH]; intros last pre; simpl.
  - intros E. by destruct pre.
  - destruct (is_shown num); [|by apply IH].
    destruct (last + 1 =? num) eqn:Enum; simpl.
    + destruct pre as [|o pre]; simpl; intros E; [discriminate|].
      injection E as <- E. apply IH in E. exact E.
    + destruct pre as [|o pre]; simpl; intros E.
      * injection E as <-. eexists _, _. split; [reflexivity|]. simpl. lia.
      * injection E as <- E.
        destruct pre as [|o pre]; simpl in *; [discriminate|].
        injection E as <- E. apply IH in E. exact E.
Qed.

Lemma filter_strongly_sorted (f : Z -> bool) (l : list Z) :
  StronglySorted Z.lt l -> StronglySorted Z.lt (List.filter f l).
Proof.
  induction 1 as [|x l Hs IH Hx]; simpl; [constructor|].
  destruct (f x); [|assumption].
  constructor; [assumption|].
  rewrite List.Forall_forall in *. intros y Hy.
  apply List.filter_In in Hy. apply Hx, Hy.
Qed.

Lemma seqZ_strongly_sorted (m n : Z) : StronglySorted Z.lt (seqZ m n).
Proof.
  remember (Z.to_nat n) as k eqn:Ek. revert m n Ek.
  induction k as [|k IH]; intros m n Ek.
  - rewrite seqZ_nil by lia. constructor.
  - rewrite seqZ_cons by lia. constructor.
    + apply IH. lia.
    + apply Forall_seqZ. intros; lia.
Qed.

End IterPages.

(** C10.  The numbers [iter_pages] yields are strictly increasing and lie
    between 1 and [pages]; a [None] is always followed at once by a number,
    and that number is not the successor of the number yielded before the
    marker (of 0, the loop's initial [last], when the marker comes first). *)
Theorem iter_pages_shape {P : Type} `{BasePagination.Paginated P}
    (self : P) (left_edge left_current right_current right_edge npages : Z) :
  BasePagination.pages self = Ok npages ->
  exists out : list (option Z),
    BasePagination.iter_pages self left_edge left_current right_current
      right_edge = Ok out
    /\ StronglySorted Z.lt (yielded_numbers out)
    /\ Forall (fun k => 1 <= k <= npages) (yielded_numbers out)
    /\ forall pre post,
         out = pre ++ None :: post ->
         exists (k : Z) (post' : list (option Z)),
           post = Some k :: post' /\ k <> last_yielded 0 pre + 1.
Proof.
  intros Hpages. unfold BasePagination.iter_pages. rewrite Hpages. simpl.
  eexists. split; [reflexivity|]. rewrite loop_numbers. repeat split.
  - apply filter_strongly_sorted, seqZ_strongly_sorted.
  - apply List.Forall_forall. intros k Hk. apply List.filter_In in Hk.
    destruct Hk as [Hk _]. apply list_elem_of_In, elem_of_seqZ in Hk. lia.
  - intros pre post E. by apply loop_markers in E.
Qed.

Lemma iter_pages_shape_witness :
  let p := BasePagination.mk_numbers 6 10 115 in
  BasePagination.pages p = Ok 12
  /\ exists out : list (option Z),
       BasePagination.iter_pages p 2 2 2 2 = Ok out
       /\ StronglySorted Z.lt (yielded_numbers out)
       /\ Forall (fun k => 1 <= k <= 12) (yielded_numbers out)
       /\ forall pre post,
            out = pre ++ None :: post ->
            exists (k : Z) (post' : list (option Z)),
              post = Some k :: post' /\ k <> last_yielded 0 pre + 1.
Proof.
  intros p. split; [reflexivity|].
  apply (iter_pages_shape p 2 2 2 2 12). reflexivity.
Defined.

(** The default edges around page 6 of 12, and a first page that is hidden *)
Example iter_pages_default :
  BasePagination.iter_pages (BasePagination.mk_numbers 6 10 115) 2 2 2 2
  = Ok [Some 1; Some 2; None; Some 4; Some 5; Some 6; Some 7; None;
        Some 11; Some 12].
Proof. reflexivity. Qed.

Example iter_pages_no_left_edge :
  BasePagination.iter_pages (BasePagination.mk_numbers 3 10 50) 0 1 1 0
  = Ok [None; Some 2; Some 3].
Proof. reflexivity. Qed.

(** ** Sitemaps *)

Section Sitemaps.

(** C2, as stated, fails: the index cuts the ids into batches of 1000, so a
    table whose largest id is 50000 has 50 pages, not 1. *)
Lemma page_count_50000_default_batch :
  let self := SitemapIndex.init [Orm.bare 50000] [] in
  SitemapIndex.count self = Some 50000
  /\ SitemapIndex.page_count self = Ok 50
  /\ SitemapIndex.page_count self <> Ok 1
  /\ Binary64.page_count self = Ok 50
  /\ Binary64.page_count self <> Ok 1.
Proof.
  intros self.
  assert (Hpages : Binary64.page_count self = Ok 50) by (vm_compute; reflexivity).
  repeat split; try discriminate; exact Hpages.
Qed.

(** C2, amended.  For a largest id [count] and a batch size below 2^53,
    where a double holds both numbers as they are, [page_count] is the
    ceiling of [count / batch_size].  With the batch size of the class,
    1000, the counts 1, 1000, 1001, 2000 and 2001 give 1, 1, 2, 2 and 3
    pages; the values of the docstring, 1, 50000, 50001, 100000 and 100001
    giving 1, 1, 2, 2 and 3, are those of a batch size of 50000.  The
    exact quotient of [SitemapIndex.page_count] is the same number. *)
Theorem page_count_is_ceiling (self : SitemapIndex.t) (c : Z) :
  SitemapIndex.count self = Some c ->
  0 <= c < 2 ^ 53 ->
  0 < SitemapIndex.batch_size self < 2 ^ 53 ->
  exists n : Z,
    Binary64.page_count self = Ok n
    /\ c <= n * SitemapIndex.batch_size self
    /\ (n - 1) * SitemapIndex.batch_size self < c
    /\ (SitemapIndex.batch_size self = 1000 ->
        (c = 1 -> n = 1) /\ (c = 1000 -> n = 1) /\ (c = 1001 -> n = 2)
        /\ (c = 2000 -> n = 2) /\ (c = 2001 -> n = 3))
    /\ (SitemapIndex.batch_size self = 50000 ->
        (c = 1 -> n = 1) /\ (c = 50000 -> n = 1) /\ (c = 50001 -> n = 2)
        /\ (c = 100000 -> n = 2) /\ (c = 100001 -> n = 3))
    /\ SitemapIndex.page_count self = Ok n.
Proof.
  intros Hc Hrange Hb. exists (- ((- c) / SitemapIndex.batch_size self)).
  assert (Hb0 : 0 < SitemapIndex.batch_size self) by lia.
  destruct (quotient_ceiling c (SitemapIndex.batch_size self) Hb0) as [Hq Hv].
  destruct (ceiling_bounds c (SitemapIndex.batch_size self) Hb0) as [Hle Hlt].
  split.
  - unfold Binary64.page_count. rewrite Hc. by apply binary64_pages_exact.
  - repeat split; try assumption; try (intros; subst; lia).
    unfold SitemapIndex.page_count. rewrite Hc. simpl.
    rewrite Hq. simpl. by rewrite Hv.
Qed.

Lemma page_count_is_ceiling_witness :
  let self := SitemapIndex.init [Orm.bare 7; Orm.bare 2001; Orm.bare 12] [] in
  SitemapIndex.count self = Some 2001
  /\ 0 <= 2001 < 2 ^ 53
  /\ 0 < SitemapIndex.batch_size self < 2 ^ 53
  /\ exists n : Z, Binary64.page_count self = Ok n /\ n = 3.
Proof.
  intros self.
  assert (Hrange : 0 <= 2001 < 2 ^ 53) by (split; [discriminate | reflexivity]).
  assert (Hbatch : 0 < SitemapIndex.batch_size self < 2 ^ 53)
    by (split; reflexivity).
  split; [reflexivity|]. split; [exact Hrange|]. split; [exact Hbatch|].
  destruct (page_count_is_ceiling self 2001 eq_refl Hrange Hbatch)
    as (n & Hn & _ & _ & H1000 & _ & _).
  exists n. split; [exact Hn|].
  apply (H1000 eq_refl). reflexivity.
Defined.

(** From 2^53 on the double of the largest id is not the id: the page of
    the last thousand is missing from the count. *)
Example page_count_rounds_from_2_53 :
  let self := SitemapIndex.init [Orm.bare 9007199254741001] [] in
  Binary64.page_count self = Ok 9007199254741
  /\ SitemapIndex.page_count self = Ok 9007199254742.
Proof. split; vm_compute; reflexivity. Qed.

(** The batch size of the class attribute *)
Example page_count_default_batches :
  (fun c => SitemapIndex.page_count (SitemapIndex.init [Orm.bare c] []))
    <$> [1; 1000; 1001; 2000; 2001]
  = [Ok 1; Ok 1; Ok 2; Ok 2; Ok 3].
Proof. reflexivity. Qed.

(** The quotients of the docstring, with the exact and the binary64 division *)
Example page_count_docstring_quotients :
  (fun c => SitemapIndex.page_count
              (SitemapIndex.mk [Orm.bare c] [] 86400 50000))
    <$> [1; 50000; 50001; 100000; 100001]
  = [Ok 1; Ok 1; Ok 2; Ok 2; Ok 3]
  /\ (fun c => Binary64.pages c 50000) <$> [1; 50000; 50001; 100000; 100001]
     = [Ok 1; Ok 1; Ok 2; Ok 2; Ok 3].
Proof. split; vm_compute; reflexivity. Qed.

(** [count] needs a record: on an empty table [float(None)] raises. *)
Example page_count_empty_table :
  SitemapIndex.page_count (SitemapIndex.init [] []) = Raise TypeError.
Proof. reflexivity. Qed.

Lemma eval_id_bounds (r : Orm.record) (lo hi : Z) (d : Orm.domain) :
  Orm.matches ([("id", ">", Orm.VInt lo); ("id", "<=", Orm.VInt hi)] ++ d) r
  = (lo <? Orm.id r) && ((Orm.id r <=? hi) && Orm.matches d r).
Proof. reflexivity. Qed.

(** C3, as stated, fails: on page 2 the id 2000, the upper end of the
    range, is selected and the id 1000, its lower end, is not. *)
Lemma batch_is_not_closed_below :
  let self := SitemapSection.init [Orm.bare 1000; Orm.bare 2000] [] 2 in
  SitemapSection.min_id self = 1000
  /\ SitemapSection.max_id self = 2000
  /\ SitemapSection.batch_ids self = [2000]
  /\ ~ (forall i : Z,
          i ∈ SitemapSection.batch_ids self <->
          i ∈ Orm.id <$> SitemapSection.model self
          /\ SitemapSection.min_id self <= i < SitemapSection.max_id self).
Proof.
  repeat split. intros Hall.
  destruct (Hall 1000) as [_ Hin].
  assert (Hsel : 1000 ∈ SitemapSection.batch_ids
                   (SitemapSection.init [Orm.bare 1000; Orm.bare 2000] [] 2)).
  { apply Hin. split; [apply list_elem_of_here|].
    change (1000 <= 1000 < 2000). lia. }
  vm_compute in Hsel. apply list_elem_of_singleton in Hsel. discriminate.
Qed.

(** C3, amended.  The ids of a section are those of the records of the
    table with [min_id < id <= max_id] that satisfy the domain of the
    section, where [min_id = (page - 1) * batch_size] and
    [max_id = min_id + batch_size]. *)
Theorem batch_ids_range (self : SitemapSection.t) (i : Z) :
  SitemapSection.min_id self
    = (SitemapSection.page self - 1) * SitemapSection.batch_size self
  /\ SitemapSection.max_id self
     = SitemapSection.min_id self + SitemapSection.batch_size self
  /\ (i ∈ SitemapSection.batch_ids self <->
      exists r : Orm.record,
        r ∈ SitemapSection.model self
        /\ Orm.id r = i
        /\ SitemapSection.min_id self < i <= SitemapSection.max_id self
        /\ Orm.matches (SitemapSection.domain self) r = true).
Proof.
  repeat split.
  - unfold SitemapSection.batch_ids, Orm.search, SitemapSection.batch_domain.
    intros Hi. apply list_elem_of_fmap in Hi as (r & -> & Hr).
    apply list_elem_of_filter in Hr as [Hm Hr].
    rewrite eval_id_bounds in Hm.
    apply andb_true_iff in Hm as [Hlo Hm].
    apply andb_true_iff in Hm as [Hhi Hm].
    exists r. repeat split; try assumption; lia.
  - intros (r & Hr & <- & [Hlo Hhi] & Hm).
    unfold SitemapSection.batch_ids, Orm.search, SitemapSection.batch_domain.
    apply list_elem_of_fmap. exists r. split; [reflexivity|].
    apply list_elem_of_filter. split; [|assumption].
    rewrite eval_id_bounds, Hm.
    apply andb_true_iff. split; [lia|].
    apply andb_true_iff. split; [lia|reflexivity].
Qed.

(** A table of 2500 consecutive ids falls into sections of 1000, 1000 and
    500 records. *)
Example batches_of_2500 :
  (fun page => length (SitemapSection.batch_ids
                         (SitemapSection.init (Orm.bare <$> seqZ 1 2500) [] page)))
    <$> [1; 2; 3; 4]
  = [1000; 1000; 500; 0]%nat.
Proof. vm_compute. reflexivity. Qed.

End Sitemaps.

(** ** Counting without a search *)

Section DomainPagination.

(** C6, as stated, fails: with an order, a domain of the one clause
    [('id', 'in', ids)] is searched like any other, and the count is what
    the search finds. *)
Lemma count_of_ordered_ids_domain_searches :
  let d := [("id", "in", Orm.VList [7])] in
  let self := Pagination.init [] d 1 10 (Some [("name", "ASC")]) in
  Pagination.count self = ([OrmSearchCount d], Ok 0)
  /\ Pagination.count self <> ([], Ok 1).
Proof. split; [reflexivity | discriminate]. Qed.

(** C6, amended.  When the domain is the one clause [('id', 'in', ids)] and
    no order is given, [count] is [len(ids)] and nothing is asked of the
    ORM. *)
Theorem count_of_ids_domain (self : Pagination.t) (ids : list Z) :
  Pagination.domain self = [("id", "in", Orm.VList ids)] ->
  Pagination.order self = None ->
  Pagination.count self = ([], Ok (Z.of_nat (length ids))).
Proof.
  intros Hd Ho. unfold Pagination.count, Pagination.ids_domain,
    Pagination.domain_0_2.
  rewrite Hd, Ho. reflexivity.
Qed.

Lemma count_of_ids_domain_witness :
  let self := Pagination.init [Orm.bare 1] [("id", "in", Orm.VList [4; 4; 9])]
                1 10 None in
  Pagination.count self = ([], Ok 3).
Proof.
  intros self. apply (count_of_ids_domain self [4; 4; 9]); reflexivity.
Defined.

(** The other ways of [count]: the cached [_count], then the search *)
Example count_cached :
  Pagination.count
    (Pagination.mk [Orm.bare 1; Orm.bare 2] [("id", ">", Orm.VInt 0)] None
       1 10 (Some 40))
  = ([], Ok 40).
Proof. reflexivity. Qed.

Example count_searched :
  let d := [("id", ">", Orm.VInt 1)] in
  Pagination.count
    (Pagination.init [Orm.bare 1; Orm.bare 2; Orm.bare 3] d 1 10 None)
  = ([OrmSearchCount d], Ok 2).
Proof. reflexivity. Qed.

End DomainPagination.

(** ** The statements of a query pagination *)

Section QueryStatements.
Variable fetchall : string -> list (list Z).

Lemma executed_app (t1 t2 : list call) :
  executed (t1 ++ t2) = executed t1 ++ executed t2.
Proof. unfold executed. apply omap_app. Qed.

Lemma executed_fetchone_0 (sql : string) :
  executed (QueryPagination.execute_fetchone_0 fetchall sql).1 = [sql].
Proof.
  unfold QueryPagination.execute_fetchone_0, traced_call. simpl.
  destruct (fetchall sql) as [|[|v row] rows]; reflexivity.
Qed.

Lemma first_column_is_silent (rows : list (list Z)) :
  (QueryPagination.first_column rows).1 = [].
Proof.
  induction rows as [|[|v row] rows IH]; simpl; try reflexivity.
  destruct (QueryPagination.first_column rows) as [t [vs|e]];
    simpl in *; subst; reflexivity.
Qed.

Lemma executed_fetchall_0 (sql : string) :
  executed (QueryPagination.execute_fetchall_0 fetchall sql).1 = [sql].
Proof.
  unfold QueryPagination.execute_fetchall_0, traced_call. simpl.
  pose proof (first_column_is_silent (fetchall sql)) as Hs.
  destruct (QueryPagination.first_column (fetchall sql)) as [t r];
    simpl in *; subst. reflexivity.
Qed.

End QueryStatements.

(** C7, as stated, fails: the count query is executed as the caller wrote
    it, with no LIMIT and no OFFSET. *)
Lemma count_query_is_executed_verbatim :
  let self := QueryPagination.mk [] "SELECT id FROM t" "SELECT count(*) FROM t"
                2 10 in
  let fetchall := fun _ : string => [[35]] in
  executed (QueryPagination.count fetchall self).1 = ["SELECT count(*) FROM t"]
  /\ executed (QueryPagination.count fetchall self).1
     <> ["SELECT count(*) FROM t LIMIT 10 OFFSET 10"].
Proof. split; [reflexivity | discriminate]. Qed.

(** C7, amended.  The page fetch executes one statement, the search query
    followed by [LIMIT per_page] and [OFFSET (page - 1) * per_page]; the
    count fetch executes one statement, the count query as it is. *)
Theorem query_pagination_statements (fetchall : string -> list (list Z))
    (self : QueryPagination.t) :
  executed (QueryPagination.items fetchall self).1
  = [(QueryPagination.search_query self
      ++ " LIMIT " ++ Py.fmt_d (QueryPagination.per_page self)
      ++ " OFFSET "
      ++ Py.fmt_d ((QueryPagination.page self - 1)
                   * QueryPagination.per_page self))%string]
  /\ executed (QueryPagination.count fetchall self).1
     = [QueryPagination.count_query self].
Proof.
  split.
  - unfold QueryPagination.items, QueryPagination.offset.
    set (sql := (_ ++ _)%string).
    pose proof (executed_fetchall_0 fetchall sql) as Hx.
    destruct (QueryPagination.execute_fetchall_0 fetchall sql) as [t [rv|e]];
      simpl in *.
    + rewrite executed_app, Hx. reflexivity.
    + rewrite Hx. reflexivity.
  - apply executed_fetchone_0.
Qed.

(** The third page of ten *)
Example items_statement :
  executed
    (QueryPagination.items (fun _ => [[21]; [22]])
       (QueryPagination.mk [] "SELECT id FROM t" "SELECT count(*) FROM t" 3 10)).1
  = ["SELECT id FROM t LIMIT 10 OFFSET 20"].
Proof. reflexivity. Qed.

(** ** Flashed messages *)

Section Flashes.
Import Flash.

Lemma flash_all_spec (calls : list (string * string)) (st : state) :
  flashes (flash_all calls st) = flashes st
  /\ (forall k, k <> "_flashes" ->
        session (flash_all calls st) !! k = session st !! k)
  /\ queue_of (flash_all calls st)
     = queue_of st ++ ((fun '(message, category) => (category, message)) <$> calls)
  /\ (calls <> [] -> is_Some (session (flash_all calls st) !! "_flashes")).
Proof.
  revert st. induction calls as [|[message category] calls IH]; intros st.
  - simpl. rewrite app_nil_r. repeat split; congruence.
  - specialize (IH (flash message category st)).
    destruct IH as (Hf & Hk & Hq & Hs). simpl.
    repeat split.
    + rewrite Hf. reflexivity.
    + intros k Hne. rewrite Hk by assumption. simpl.
      by rewrite lookup_insert_ne.
    + rewrite Hq. unfold queue_of at 1. simpl. rewrite lookup_insert_eq.
      simpl. by rewrite <- app_assoc.
    + intros _. destruct calls as [|c calls].
      * simpl. rewrite lookup_insert_eq. eauto.
      * apply Hs. discriminate.
Qed.

(** Once the context holds the messages, a call returns them and changes
    nothing. *)
Lemma get_cached (with_categories : bool) (st : state) (queue : list flashed) :
  flashes st = Some queue ->
  get_flashed_messages with_categories st = (returned with_categories queue, st).
Proof.
  intros Hf. unfold get_flashed_messages, returned. rewrite Hf.
  by destruct with_categories.
Qed.

(** The first call of a request takes the queue out of the session. *)
Lemma get_first (with_categories : bool) (st : state) :
  flashes st = None ->
  get_flashed_messages with_categories st
  = (returned with_categories (queue_of st),
     mk (delete "_flashes" (session st)) (Some (queue_of st))).
Proof.
  intros Hf. unfold get_flashed_messages, returned, queue_of. rewrite Hf.
  destruct (session st !! "_flashes") as [queue|] eqn:Hq; simpl.
  - by destruct with_categories.
  - rewrite delete_id by assumption. by destruct with_categories.
Qed.

(** Whatever the request does next, the context keeps its messages. *)
Lemma steps_keep_flashes (os : list op) (st : state) (queue : list flashed) :
  flashes st = Some queue ->
  flashes (steps os st).2 = Some queue
  /\ Forall (fun '(o, r) =>
               match o with
               | Get with_categories => r = Some (returned with_categories queue)
               | Flash _ _ => r = None
               end) (zip os (steps os st).1).
Proof.
  revert st. induction os as [|o os IH]; intros st Hf; simpl.
  - split; [assumption | constructor].
  - destruct o as [message category | with_categories]; simpl.
    + specialize (IH (flash message category st) Hf).
      destruct (steps os (flash message category st)) as [rs st'].
      simpl in *. destruct IH as [IH1 IH2].
      split; [assumption|]. by constructor.
    + rewrite (get_cached with_categories st queue Hf).
      specialize (IH st Hf). destruct (steps os st) as [rs st'].
      simpl in *. destruct IH as [IH1 IH2].
      split; [assumption|]. by constructor.
Qed.

(** C8.  In a request whose context holds no messages yet, after any
    sequence of [flash] calls the first [get_flashed_messages] takes the
    whole queue out of the session, leaving the other entries alone, and
    returns it: the pairs when [with_categories] is set, their texts
    otherwise.  Whatever the request does afterwards, every further call
    returns the same messages and leaves the session as it finds it. *)
Theorem flashes_drained_once (st0 : state) (calls : list (string * string))
    (with_categories : bool) (later : list op) (again : bool) :
  flashes st0 = None ->
  let queue :=
    queue_of st0 ++ ((fun '(message, category) => (category, message)) <$> calls) in
  let st1 := flash_all calls st0 in
  let '(first, st2) := get_flashed_messages with_categories st1 in
  let st3 := (steps later st2).2 in
  first = returned with_categories queue
  /\ session st2 = delete "_flashes" (session st1)
  /\ session st2 !! "_flashes" = None
  /\ flashes st2 = Some queue
  /\ get_flashed_messages again st3 = (returned again queue, st3).
Proof.
  intros Hf queue st1.
  destruct (flash_all_spec calls st0) as (Hf1 & _ & Hq & _).
  fold st1 in Hf1, Hq. rewrite Hf in Hf1.
  rewrite (get_first with_categories st1 Hf1). rewrite Hq. fold queue.
  simpl. repeat split.
  - apply lookup_delete_eq.
  - apply get_cached.
    apply (steps_keep_flashes later
             (mk (delete "_flashes" (session st1)) (Some queue)) queue).
    reflexivity.
Qed.

Lemma flashes_drained_once_witness :
  let st0 := mk {["user" := []]} None in
  let later := [Get false; Flash "again" "info"; Get true] in
  flashes st0 = None
  /\ let '(first, st2) :=
       get_flashed_messages true
         (flash_all [("saved", "message"); ("no stock", "error")] st0) in
     let st3 := (steps later st2).2 in
     first = Pairs [("message", "saved"); ("error", "no stock")]
     /\ session st2 = delete "_flashes"
                        (session (flash_all [("saved", "message");
                                             ("no stock", "error")] st0))
     /\ session st2 !! "_flashes" = None
     /\ flashes st2 = Some [("message", "saved"); ("error", "no stock")]
     /\ get_flashed_messages false st3 = (Texts ["saved"; "no stock"], st3).
Proof.
  intros st0 later. split; [reflexivity|].
  apply (flashes_drained_once st0 [("saved", "message"); ("no stock", "error")]
           true later false).
  reflexivity.
Defined.

(** A message flashed after the first call waits in the session for the
    next request. *)
Example flash_after_get :
  let st := (steps [Flash "a" "message"; Get true; Flash "b" "message"; Get true]
               (mk ∅ None)).2 in
  session st !! "_flashes" = Some [("message", "b")]
  /\ flashes st = Some [("message", "a")].
Proof. split; reflexivity. Qed.

End Flashes.

(** ** Errors of the Sphinx pagination *)

Section Sphinx.
Import SphinxPagination.
Context {C R : Type} `{SphinxClientAPI C R}.

Lemma sphinx_disabled (options : gmap string string) :
  options !! "sphinx_server" = None \/ options !! "sphinx_port" = None ->
  sphinx_enabled options = false.
Proof.
  intros [Hs | Hp]; unfold sphinx_enabled.
  - rewrite Hs. rewrite bool_decide_eq_false_2; [reflexivity|].
    by apply is_Some_None.
  - rewrite Hp. apply andb_false_iff. right.
    rewrite bool_decide_eq_false_2; [reflexivity|].
    by apply is_Some_None.
Qed.

End Sphinx.

(** C9.  Without the option [sphinx_server] or without the option
    [sphinx_port] the constructor raises a [RuntimeError]; and when the
    query of [result] comes back with [None], an [Exception] is raised
    whose text is the client's last error. *)
Theorem sphinx_errors {C R : Type} `{SphinxPagination.SphinxClientAPI C R}
    (options : gmap string string) (obj : Orm.table)
    (query search_index : string) (page per_page : Z)
    (self : SphinxPagination.t C) (limited failed : C) :
  (options !! "sphinx_server" = None \/ options !! "sphinx_port" = None ->
   SphinxPagination.init options obj query search_index page per_page
   = Raise (RuntimeError "Sphinx is not available or configured"))
  /\ (SphinxPagination.SetLimits (SphinxPagination.offset self)
        (SphinxPagination.per_page self) (SphinxPagination.sphinx_client self)
      = Ok limited ->
      SphinxPagination.Query (SphinxPagination.query self)
        (SphinxPagination.search_index self) limited
      = (None, failed) ->
      SphinxPagination.result_ self
      = (Raise (Exception_ (SphinxPagination.GetLastError failed)), failed)).
Proof.
  split.
  - intros Habsent. unfold SphinxPagination.init.
    by rewrite (sphinx_disabled options Habsent).
  - intros Hlimits Hquery. unfold SphinxPagination.result_.
    by rewrite Hlimits, Hquery.
Qed.

Lemma sphinx_errors_witness :
  let options : gmap string string := {["sphinx_server" := "localhost"]} in
  let self :=
    SphinxPagination.mk [] "shoes" "articles"
      (SphinxPagination.mk_toy (Some ("localhost", 3312)) (0, 20) "") 2 10 in
  let limited := SphinxPagination.mk_toy (Some ("localhost", 3312)) (10, 10) "" in
  let failed :=
    SphinxPagination.mk_toy (Some ("localhost", 3312)) (10, 10)
      "unknown local index" in
  (options !! "sphinx_server" = None \/ options !! "sphinx_port" = None)
  /\ SphinxPagination.SetLimits (SphinxPagination.offset self)
       (SphinxPagination.per_page self) (SphinxPagination.sphinx_client self)
     = Ok limited
  /\ SphinxPagination.Query (SphinxPagination.query self)
       (SphinxPagination.search_index self) limited
     = (None, failed)
  /\ SphinxPagination.init (C := SphinxPagination.toy_client) options []
       "shoes" "articles" 2 10
     = Raise (RuntimeError "Sphinx is not available or configured")
  /\ SphinxPagination.result_ self
     = (Raise (Exception_ "unknown local index"), failed).
Proof.
  intros options self limited failed.
  assert (Habsent : options !! "sphinx_server" = None
                    \/ options !! "sphinx_port" = None)
    by (right; reflexivity).
  destruct (sphinx_errors options [] "shoes" "articles" 2 10 self limited failed)
    as [Hinit Hresult].
  split; [exact Habsent|].
  split; [reflexivity|]. split; [reflexivity|].
  split; [exact (Hinit Habsent) | exact (Hresult eq_refl eq_refl)].
Defined.

(** With both options the client is pointed at the server, and a query on
    an index the server knows gives the count. *)
Example sphinx_configured :
  let options : gmap string string :=
    {["sphinx_server" := "localhost"; "sphinx_port" := " 3312"]} in
  match SphinxPagination.init (C := SphinxPagination.toy_client) options []
          "shoes" "products" 1 10 with
  | Ok self =>
      SphinxPagination.toy_server (SphinxPagination.sphinx_client self)
      = Some ("localhost", 3312)
      /\ (SphinxPagination.count self).1 = Ok 3
  | Raise _ => False
  end.
Proof. vm_compute. split; reflexivity. Qed.

Example sphinx_port_not_a_number :
  SphinxPagination.init (C := SphinxPagination.toy_client)
    {["sphinx_server" := "localhost"; "sphinx_port" := "search"]} []
    "shoes" "products" 1 10
  = Raise ValueError.
Proof. vm_compute. reflexivity. Qed.

(** ** slugify *)

Section Slugs.
Import Text Slug.

Ltac chars :=
  intros;
  unfold is_slug_char, is_separator, is_word, is_space, is_ascii, lower_char,
    hyphen in *;
  repeat match goal with
         | |- context [if ?b then _ else _] => destruct b eqn:?
         end;
  repeat match goal with
         | H : _ = true |- _ =>
             first [ apply andb_true_iff in H as [? ?]
                   | apply orb_true_iff in H as [?|?]
                   | apply N.leb_le in H | apply N.ltb_lt in H
                   | apply N.eqb_eq in H ]
         | H : _ = false |- _ =>
             first [ apply andb_false_iff in H as [?|?]
                   | apply orb_false_iff in H as [? ?]
                   | apply N.leb_gt in H | apply N.ltb_ge in H
                   | apply N.eqb_neq in H ]
         end;
  repeat match goal with
         | |- _ /\ _ => split
         | |- _ -> _ => intros
         end;
  repeat match goal with
         | H : _ = false |- _ =>
             first [ apply andb_false_iff in H as [?|?]
                   | apply orb_false_iff in H as [? ?]
                   | apply N.leb_gt in H | apply N.ltb_ge in H
                   | apply N.eqb_neq in H ]
         end;
  repeat first
    [ rewrite andb_true_iff | rewrite orb_true_iff | rewrite andb_false_iff
    | rewrite orb_false_iff | rewrite N.leb_le | rewrite N.eqb_eq
    | rewrite N.ltb_lt | rewrite N.leb_gt | rewrite N.eqb_neq
    | rewrite N.ltb_ge ];
  try lia.

Lemma slug_char_ascii (c : char) : is_slug_char c = true -> is_ascii c = true.
Proof. chars. Qed.

Lemma slug_char_kept (c : char) :
  is_slug_char c = true ->
  is_word c || is_space c || (c =? hyphen)%N = true.
Proof. chars. Qed.

Lemma slug_char_not_space (c : char) :
  is_slug_char c = true -> is_space c = false.
Proof. chars. Qed.

Lemma slug_char_lower (c : char) : is_slug_char c = true -> lower_char c = c.
Proof. chars. Qed.

(** What the first substitution keeps is, in lower case, a separator or a
    character of a slug. *)
Lemma kept_lower (c : char) :
  is_word c || is_space c || (c =? hyphen)%N = true ->
  is_ascii (lower_char c) = true
  /\ (is_separator (lower_char c) = false -> is_slug_char (lower_char c) = true).
Proof. chars. Qed.

Lemma filter_all {A : Type} (f : A -> bool) (s : list A) :
  Forall (fun c => f c = true) s -> List.filter f s = s.
Proof.
  induction 1 as [|c s Hc Hs IH]; simpl; [reflexivity|].
  by rewrite Hc, IH.
Qed.

Lemma forallb_all {A : Type} (f : A -> bool) (s : list A) :
  Forall (fun c => f c = true) s -> forallb f s = true.
Proof. intros Hs. apply forallb_forall. by apply List.Forall_forall. Qed.

Lemma lstrip_suffix (s : list char) : exists pre, s = pre ++ lstrip s.
Proof.
  induction s as [|c s [pre IH]]; simpl.
  - by exists [].
  - destruct (is_space c).
    + exists (c :: pre). simpl. by rewrite <- IH.
    + by exists [].
Qed.

Lemma lstrip_Forall (Q : char -> Prop) (s : list char) :
  Forall Q s -> Forall Q (lstrip s).
Proof.
  intros Hs. destruct (lstrip_suffix s) as [pre E].
  rewrite E in Hs. by apply Forall_app in Hs as [_ Hs].
Qed.

Lemma strip_Forall (Q : char -> Prop) (s : list char) :
  Forall Q s -> Forall Q (strip s).
Proof.
  intros Hs. unfold strip, rstrip.
  apply Forall_rev, lstrip_Forall, Forall_rev. by apply lstrip_Forall.
Qed.

Lemma lstrip_no_space (s : list char) :
  Forall (fun c => is_space c = false) s -> lstrip s = s.
Proof. intros Hs. destruct Hs as [|c s Hc Hs]; simpl; [|rewrite Hc]; done. Qed.

Lemma strip_no_space (s : list char) :
  Forall (fun c => is_space c = false) s -> strip s = s.
Proof.
  intros Hs. unfold strip, rstrip. rewrite (lstrip_no_space s Hs).
  rewrite lstrip_no_space by by apply Forall_rev.
  apply rev_involutive.
Qed.

Lemma lower_fixed (s : list char) :
  Forall (fun c => lower_char c = c) s -> lower s = s.
Proof.
  unfold lower. induction 1 as [|c s Hc Hs IH]; simpl; [reflexivity|].
  rewrite Hc. f_equal. exact IH.
Qed.

(** Substituting the hyphens a second time changes nothing: every match of
    the second pass is one hyphen of the first. *)
Lemma hyphenate_idempotent (s : list char) (b b' : bool) :
  (b' = true -> b = true) ->
  hyphenate_from b' (hyphenate_from b s) = hyphenate_from b s.
Proof.
  revert b b'. induction s as [|c s IH]; intros b b' Hb; simpl; [reflexivity|].
  destruct (is_separator c) eqn:Ec.
  - destruct b; simpl.
    + by apply IH.
    + destruct b'; [by discriminate Hb|]. simpl.
      change (is_separator hyphen) with true. simpl.
      f_equal. by apply IH.
  - simpl. rewrite Ec. f_equal. apply IH. discriminate.
Qed.

Lemma hyphenate_slug_chars (s : list char) (b : bool) :
  Forall (fun c => is_separator c = false -> is_slug_char c = true) s ->
  Forall (fun c => is_slug_char c = true) (hyphenate_from b s).
Proof.
  intros Hs. revert b. induction Hs as [|c s Hc Hs IH]; intros b; simpl.
  - constructor.
  - destruct (is_separator c) eqn:Ec.
    + destruct b; simpl; [apply IH|]. constructor; [reflexivity | apply IH].
    + constructor; [by apply Hc | apply IH].
Qed.

Variable nfkd : list char -> list char.
Hypothesis nfkd_ascii : forall s, forallb is_ascii s = true -> nfkd s = s.

(** A slug goes through [slugify] unchanged, as a [unicode] and as a
    [str]. *)
Lemma slugify_slug (y : list char) :
  Forall (fun c => is_slug_char c = true) y ->
  hyphenate_from false y = y ->
  slugify nfkd (Unicode y) = Ok y /\ slugify nfkd (Str y) = Ok y.
Proof.
  intros Hy Hh.
  assert (Hascii : Forall (fun c => is_ascii c = true) y)
    by (eapply Forall_impl; [exact Hy | apply slug_char_ascii]).
  assert (Hstr : slugify nfkd (Str y) = slugify nfkd (Unicode y)).
  { unfold slugify, ascii_ignore.
    by rewrite (filter_all is_ascii y Hascii). }
  rewrite Hstr. cut (slugify nfkd (Unicode y) = Ok y); [by split|].
  unfold slugify.
  rewrite nfkd_ascii by by apply forallb_all.
  unfold ascii_ignore. rewrite (filter_all is_ascii) by assumption.
  unfold _SLUGIFY_STRIP_RE_sub. rewrite filter_all
    by (eapply Forall_impl; [exact Hy | apply slug_char_kept]).
  rewrite strip_no_space
    by (eapply Forall_impl; [exact Hy | apply slug_char_not_space]).
  rewrite lower_fixed
    by (eapply Forall_impl; [exact Hy | apply slug_char_lower]).
  unfold unicode. rewrite forallb_all by assumption. simpl.
  unfold _SLUGIFY_HYPHENATE_RE_sub. by rewrite Hh.
Qed.

(** Before the hyphens are put in, the text is ASCII and, separators
    apart, made of the characters of a slug. *)
Lemma cleaned_chars (s : list char) :
  Forall (fun c => is_ascii c = true
                   /\ (is_separator c = false -> is_slug_char c = true))
         (lower (strip (_SLUGIFY_STRIP_RE_sub s))).
Proof.
  unfold lower. apply Forall_fmap.
  apply strip_Forall. unfold _SLUGIFY_STRIP_RE_sub.
  apply List.Forall_forall. intros c Hc. apply List.filter_In in Hc as [_ Hc].
  simpl. by apply kept_lower.
Qed.

Lemma slugify_value (x : basestring) :
  exists value : list char,
    slugify nfkd x = Ok (hyphenate_from false value)
    /\ Forall (fun c => is_separator c = false -> is_slug_char c = true) value.
Proof.
  unfold slugify.
  set (s := ascii_ignore (nfkd _)).
  pose proof (cleaned_chars s) as Hs.
  exists (lower (strip (_SLUGIFY_STRIP_RE_sub s))). split.
  - unfold unicode. rewrite forallb_all; [reflexivity|].
    eapply Forall_impl; [exact Hs|]. by intros c [Hc _].
  - eapply Forall_impl; [exact Hs|]. by intros c [_ Hc].
Qed.

End Slugs.

(** C5.  [slugify] is a function of its argument, it returns a slug for
    every [str] and every [unicode], and the slug of a slug is that slug,
    whether it is passed on as the [unicode] it is or as a [str]; the
    normalisation is any one that leaves ASCII text as it is, as NFKD
    does. *)
Theorem slugify_idempotent (nfkd : list Text.char -> list Text.char)
    (x : Slug.basestring) :
  (forall s, forallb Text.is_ascii s = true -> nfkd s = s) ->
  exists y : list Text.char,
    Slug.slugify nfkd x = Ok y
    /\ Slug.slugify nfkd (Slug.Unicode y) = Ok y
    /\ Slug.slugify nfkd (Slug.Str y) = Ok y.
Proof.
  intros Hnfkd. destruct (slugify_value nfkd x) as (value & Hx & Hvalue).
  exists (Slug.hyphenate_from false value). split; [exact Hx|].
  apply (slugify_slug nfkd Hnfkd).
  - by apply hyphenate_slug_chars.
  - by apply hyphenate_idempotent.
Qed.

Lemma nfkd_fragment_ascii (s : list Text.char) :
  forallb Text.is_ascii s = true -> Slug.nfkd_fragment s = s.
Proof.
  unfold Slug.nfkd_fragment. induction s as [|c s IH]; [reflexivity|].
  intros Hs. apply andb_true_iff in Hs as [Hc Hs].
  rewrite bind_cons, IH by assumption.
  unfold Slug.nfkd_fragment_char, Text.is_ascii in *.
  apply N.ltb_lt in Hc.
  repeat match goal with
         | |- context [(c =? ?k)%N] =>
             destruct (N.eqb_spec c k); [lia|]
         end.
  reflexivity.
Qed.

Lemma slugify_idempotent_witness :
  let x := Slug.Unicode (Text.of_string "  Sharoon -- Thomas_3  ") in
  exists y : list Text.char,
    Slug.slugify Slug.nfkd_fragment x = Ok y
    /\ Slug.slugify Slug.nfkd_fragment (Slug.Unicode y) = Ok y
    /\ Slug.slugify Slug.nfkd_fragment (Slug.Str y) = Ok y.
Proof.
  intros x.
  apply (slugify_idempotent Slug.nfkd_fragment x nfkd_fragment_ascii).
Defined.

(** The examples of the docstring: a [str] loses the two bytes of the
    UTF-8 letter, a [unicode] keeps the letter under its ring. *)
Example slugify_str :
  Slug.slugify Slug.nfkd_fragment (Slug.Str (Text.of_string "Sharoon Thomas"))
  = Ok (Text.of_string "sharoon-thomas").
Proof. reflexivity. Qed.

Example slugify_str_utf8 :
  Slug.slugify Slug.nfkd_fragment
    (Slug.Str (Text.of_string "Sharoon Thom" ++ [195; 165]%N ++ Text.of_string "s"))
  = Ok (Text.of_string "sharoon-thoms").
Proof. reflexivity. Qed.

Example slugify_unicode :
  Slug.slugify Slug.nfkd_fragment
    (Slug.Unicode (Text.of_string "Sharoon Thom" ++ [229]%N ++ Text.of_string "s"))
  = Ok (Text.of_string "sharoon-thomas").
Proof. reflexivity. Qed.

Example slugify_runs :
  Slug.slugify Slug.nfkd_fragment
    (Slug.Unicode (Text.of_string "  Sharoon -- Thomas_3!  "))
  = Ok (Text.of_string "sharoon-thomas_3").
Proof. reflexivity. Qed.

(** ** The items of a page *)

Section PageItems.
Import BasePagination.
Context {A : Type}.
Implicit Types self : BasePagination.t A.

(** From the first page on, the slice is a plain window of the data. *)
Lemma items_window self :
  1 <= page self -> 0 <= per_page self ->
  Items.items self
  = take (Z.to_nat (per_page self)) (drop (Z.to_nat (offset self)) (self_data self)).
Proof.
  intros Hpage Hper. unfold Items.items, Slice.slice, Slice.clamp.
  set (len := Z.of_nat (length (self_data self))).
  assert (Hoff : 0 <= offset self) by (unfold offset; nia).
  destruct (Z.ltb_spec (offset self) 0) as [|_]; [lia|].
  destruct (Z.ltb_spec (offset self + per_page self) 0) as [|_]; [lia|].
  destruct (Z.le_gt_cases len (offset self)) as [Hout | Hin].
  - rewrite !Z.min_r by lia.
    rewrite (drop_ge _ (Z.to_nat (offset self))) by (subst len; lia).
    rewrite drop_ge by (subst len; lia). by rewrite !take_nil.
  - rewrite (Z.min_l (offset self)) by lia.
    destruct (Z.le_gt_cases (offset self + per_page self) len) as [Hfit | Hcut].
    + rewrite Z.min_l by lia. f_equal. lia.
    + rewrite Z.min_r by lia.
      rewrite !take_ge; [reflexivity | |]; rewrite length_drop;
        subst len; lia.
Qed.

Lemma windows_concat (data : list A) (size k : nat) :
  concat ((fun i => take size (drop (i * size) data)) <$> seq 0 k)
  = take (k * size) data.
Proof.
  induction k as [|k IH]; [by rewrite take_0|].
  rewrite seq_S, fmap_app, concat_app, IH. simpl.
  rewrite app_nil_r, take_take_drop. f_equal. lia.
Qed.

Lemma pages_bounds self (n : Z) :
  0 < per_page self -> pages self = Ok n ->
  count self <= n * per_page self /\ (n - 1) * per_page self < count self.
Proof.
  intros Hper Hn. rewrite pages_value in Hn by assumption.
  injection Hn as <-. by apply ceiling_bounds.
Qed.

(** X1.  The pages cut the data into consecutive pieces: the items of the
    pages 1 to [pages], one after the other, are the data, each item once
    and in order. *)
Theorem pages_partition_data self (n : Z) :
  0 < per_page self -> pages self = Ok n ->
  concat ((fun p => Items.items (Items.at_page self p)) <$> seqZ 1 n)
  = self_data self.
Proof.
  intros Hper Hn.
  destruct (pages_bounds self n Hper Hn) as [Hhi Hlo].
  unfold seqZ. rewrite <- list_fmap_compose.
  rewrite (list_fmap_ext _
             (fun i => take (Z.to_nat (per_page self))
                         (drop (i * Z.to_nat (per_page self)) (self_data self)))).
  - rewrite windows_concat. apply take_ge.
    change (count self) with (Z.of_nat (length (self_data self))) in Hhi.
    destruct (Z.le_gt_cases n 0) as [Hn0 | Hn0].
    + assert (length (self_data self) = 0)%nat by nia. lia.
    + apply Nat2Z.inj_le. rewrite Nat2Z.inj_mul, !Z2Nat.id by lia. lia.
  - intros _ i _. unfold compose.
    assert (0 < self_per_page self) by exact Hper.
    rewrite (items_window (Items.at_page self (Z.of_nat i + 1))); simpl; try lia.
    unfold offset. simpl. do 2 f_equal.
    rewrite Z2Nat.inj_mul by lia. f_equal; lia.
Qed.

(** X2.  On a page that exists, [begin_count] and [end_count] are the
    positions, counted from 1, of the first and the last item shown. *)
Theorem counts_frame_items self (n : Z) :
  0 < per_page self -> pages self = Ok n -> 1 <= page self <= n ->
  Items.items self
  = Slice.slice (self_data self) (begin_count self - 1) (end_count self)
  /\ Z.of_nat (length (Items.items self))
     = end_count self - begin_count self + 1
  /\ 1 <= begin_count self <= end_count self.
Proof.
  intros Hper Hn Hpage.
  destruct (pages_bounds self n Hper Hn) as [Hhi Hlo].
  assert (Hoff : 0 <= offset self < count self) by (unfold offset; nia).
  assert (Hbegin : begin_count self = offset self + 1).
  { unfold begin_count, Py.min, offset in *.
    destruct (Z.leb_spec ((page self - 1) * per_page self + 1) (count self));
      lia. }
  assert (Hend : end_count self = Z.min (offset self + per_page self) (count self)).
  { unfold end_count, Py.min. rewrite Hbegin.
    destruct (Z.leb_spec (offset self + 1 + per_page self - 1) (count self));
      lia. }
  rewrite items_window by lia. rewrite Hbegin, Hend.
  change (count self) with (Z.of_nat (length (self_data self))) in *.
  set (len := Z.of_nat (length (self_data self))) in *.
  assert (Hslice : Slice.slice (self_data self) (offset self + 1 - 1)
                     (Z.min (offset self + per_page self) len)
                   = take (Z.to_nat (per_page self))
                       (drop (Z.to_nat (offset self)) (self_data self))).
  { unfold Slice.slice, Slice.clamp. fold len.
    destruct (Z.ltb_spec (offset self + 1 - 1) 0); [lia|].
    destruct (Z.ltb_spec (Z.min (offset self + per_page self) len) 0); [lia|].
    replace (Z.min (offset self + 1 - 1) len) with (offset self) by lia.
    rewrite (Z.min_l _ len) by lia.
    destruct (Z.le_gt_cases (offset self + per_page self) len).
    - rewrite Z.min_l by lia. f_equal. lia.
    - rewrite Z.min_r by lia.
      rewrite !take_ge; [reflexivity | |]; rewrite length_drop; subst len; lia. }
  rewrite Hslice. split; [reflexivity|]. split; [|lia].
  rewrite length_take, length_drop. subst len. lia.
Qed.

(** X3.  [has_next] tells whether the next page has items; a page after
    the last one has none, and neither has page 0. *)
Theorem has_next_iff_items self (n : Z) :
  0 < per_page self -> pages self = Ok n -> 1 <= page self ->
  has_next self = Ok (page self <? n)
  /\ (page self < n <-> Items.items (Items.at_page self (next_num self)) <> [])
  /\ (n < page self -> Items.items self = [])
  /\ Items.items (Items.at_page self 0) = [].
Proof.
  intros Hper Hn Hpage.
  destruct (pages_bounds self n Hper Hn) as [Hhi Hlo].
  change (count self) with (Z.of_nat (length (self_data self))) in *.
  assert (Hper' : 0 < self_per_page self) by exact Hper.
  assert (Hpage' : 1 <= self_page self) by exact Hpage.
  split; [unfold has_next; by rewrite Hn|].
  split; [|split].
  - rewrite (items_window (Items.at_page self (next_num self)));
      [|unfold next_num; simpl; lia | simpl; lia].
    unfold offset, next_num. simpl.
    replace (self_page self + 1 - 1) with (self_page self) by lia.
    set (w := take _ _).
    assert (Hw : length w
                 = Nat.min (Z.to_nat (self_per_page self))
                     (length (self_data self)
                      - Z.to_nat (self_page self * self_per_page self)))
      by (subst w; by rewrite length_take, length_drop).
    split.
    + intros Hlt Hnil. rewrite Hnil in Hw. simpl in Hw.
      assert (self_page self * self_per_page self
              < Z.of_nat (length (self_data self))) by (simpl in *; nia).
      lia.
    + intros Hne. destruct (Z.lt_ge_cases (page self) n) as [|Hge]; [assumption|].
      exfalso. apply Hne. apply nil_length_inv. rewrite Hw.
      assert (Z.of_nat (length (self_data self))
              <= self_page self * self_per_page self) by (simpl in *; nia).
      lia.
  - intros Hlt. rewrite items_window by lia.
    rewrite drop_ge; [by rewrite take_nil|].
    unfold offset. simpl in *. nia.
  - unfold Items.items, Slice.slice, Slice.clamp, offset. simpl.
    replace ((0 - 1) * self_per_page self + self_per_page self) with 0 by lia.
    destruct (Z.ltb_spec ((0 - 1) * self_per_page self) 0); [|lia].
    simpl (0 <? 0). cbv iota.
    rewrite Z.min_l by lia.
    replace (Z.to_nat (0 - _)) with 0%nat by lia. apply take_0.
Qed.

End PageItems.

Lemma pages_partition_data_witness :
  let self := BasePagination.init 2 3 (Some [10; 20; 30; 40; 50; 60; 70]) in
  0 < BasePagination.per_page self /\ BasePagination.pages self = Ok 3
  /\ concat ((fun p => Items.items (Items.at_page self p)) <$> seqZ 1 3)
     = BasePagination.self_data self.
Proof.
  intros self. split; [reflexivity|]. split; [reflexivity|].
  apply (pages_partition_data self 3); reflexivity.
Defined.


Lemma counts_frame_items_witness :
  let self := BasePagination.init 3 3 (Some [10; 20; 30; 40; 50; 60; 70]) in
  0 < BasePagination.per_page self /\ BasePagination.pages self = Ok 3
  /\ 1 <= BasePagination.page self <= 3
  /\ Items.items self = [70]
  /\ BasePagination.begin_count self = 7 /\ BasePagination.end_count self = 7.
Proof.
  intros self.
  destruct (counts_frame_items self 3) as (Hitems & Hlen & Hb);
    [reflexivity | reflexivity | simpl; lia |].
  split; [reflexivity|]. split; [reflexivity|]. split; [simpl; lia|].
  split; [rewrite Hitems; reflexivity|]. split; reflexivity.
Defined.

Lemma has_next_iff_items_witness :
  let self := BasePagination.init 2 3 (Some [10; 20; 30; 40; 50; 60; 70]) in
  0 < BasePagination.per_page self /\ BasePagination.pages self = Ok 3
  /\ 1 <= BasePagination.page self
  /\ BasePagination.has_next self = Ok true
  /\ Items.items (Items.at_page self 3) <> [].
Proof.
  intros self.
  destruct (has_next_iff_items self 3) as (Hnext & Hiff & _);
    [reflexivity | reflexivity | simpl; lia |].
  split; [reflexivity|]. split; [reflexivity|]. split; [simpl; lia|].
  split; [exact Hnext|]. apply Hiff. simpl. lia.
Defined.

(** ** What iter_pages shows and what it marks *)

Section IterPagesMore.
Import BasePagination.
Context {P : Type} `{Paginated P}.
Variables (self : P) (npages : Z).
Variables (left_edge left_current right_current right_edge : Z).

Local Abbreviation loop := (iter_pages_loop self npages left_edge left_current
                              right_current right_edge).
Local Abbreviation is_shown := (shown self npages left_edge left_current
                                  right_current right_edge).

(** A number that no marker precedes follows the number yielded before. *)
Lemma loop_no_silent_gap (nums : list Z) (last : Z)
    (pre post : list (option Z)) (b : Z) :
  loop nums last = pre ++ Some b :: post ->
  list.last pre <> Some None ->
  b = last_yielded last pre + 1.
Proof.
  revert last pre. induction nums as [|num rest IH]; intros last pre; simpl.
  - intros E. by destruct pre.
  - destruct (is_shown num); [|by apply IH].
    destruct (Z.eqb_spec (last + 1) num) as [Enum | Enum]; simpl.
    + destruct pre as [|o pre]; simpl; intros E Hlast.
      * injection E as -> _. lia.
      * injection E as <- E. apply IH in E; [exact E|].
        destruct pre; [discriminate | exact Hlast].
    + destruct pre as [|o pre]; simpl; intros E Hlast; [discriminate|].
      injection E as <- E.
      destruct pre as [|o pre]; simpl in *; [congruence|].
      injection E as <- E. apply IH in E; [exact E|].
      destruct pre; [discriminate | exact Hlast].
Qed.

(** When every number is shown, the run from [last + 1] is yielded as it
    is. *)
Lemma loop_all_shown (k : nat) (last : Z) :
  Forall (fun num => is_shown num = true) (seqZ (last + 1) (Z.of_nat k)) ->
  loop (seqZ (last + 1) (Z.of_nat k)) last
  = Some <$> seqZ (last + 1) (Z.of_nat k).
Proof.
  revert last. induction k as [|k IH]; intros last Hall; [reflexivity|].
  rewrite seqZ_cons in * by lia.
  replace (Z.pred (Z.of_nat (S k))) with (Z.of_nat k) in * by lia.
  replace (Z.succ (last + 1)) with (last + 1 + 1) in * by lia.
  apply Forall_cons in Hall as [Hnum Hall]. simpl. rewrite Hnum.
  rewrite Z.eqb_refl. simpl. f_equal. by apply IH.
Qed.

End IterPagesMore.

(** X4.  No gap goes unmarked: a yielded number that has no [None] right
    before it is the successor of the number yielded before it, and is 1
    when it comes first. *)
Theorem iter_pages_marks_every_gap {P : Type} `{BasePagination.Paginated P}
    (self : P) (left_edge left_current right_current right_edge : Z)
    (out pre post : list (option Z)) (b : Z) :
  BasePagination.iter_pages self left_edge left_current right_current
    right_edge = Ok out ->
  out = pre ++ Some b :: post ->
  last pre <> Some None ->
  b = last_yielded 0 pre + 1.
Proof.
  unfold BasePagination.iter_pages.
  destruct (BasePagination.pages self) as [npages|e]; simpl; [|discriminate].
  intros [= <-] E Hlast. by apply loop_no_silent_gap in E.
Qed.

Lemma iter_pages_marks_every_gap_witness :
  let p := BasePagination.mk_numbers 6 10 115 in
  let out := [Some 1; Some 2; None; Some 4; Some 5; Some 6; Some 7; None;
              Some 11; Some 12] in
  BasePagination.iter_pages p 2 2 2 2 = Ok out
  /\ 5 = last_yielded 0 [Some 1; Some 2; None; Some 4] + 1.
Proof.
  intros p out. split; [reflexivity|].
  apply (iter_pages_marks_every_gap p 2 2 2 2 out
           [Some 1; Some 2; None; Some 4]
           [Some 6; Some 7; None; Some 11; Some 12] 5);
    [reflexivity | reflexivity | discriminate].
Defined.

(** X5.  The page being shown is always among the numbers, given
    [left_current >= 0] and [right_current >= 1]; so is page 1 with a left
    edge and the last page with a right edge. *)
Theorem iter_pages_shows_current {P : Type} `{BasePagination.Paginated P}
    (self : P) (left_edge left_current right_current right_edge npages : Z) :
  BasePagination.pages self = Ok npages ->
  1 <= BasePagination.page self <= npages ->
  exists out : list (option Z),
    BasePagination.iter_pages self left_edge left_current right_current
      right_edge = Ok out
    /\ (0 <= left_current -> 1 <= right_current ->
        Some (BasePagination.page self) ∈ out)
    /\ (1 <= left_edge -> Some 1 ∈ out)
    /\ (1 <= right_edge -> Some npages ∈ out).
Proof.
  intros Hpages Hpage. unfold BasePagination.iter_pages. rewrite Hpages. simpl.
  eexists. split; [reflexivity|].
  assert (Hin : forall k, 1 <= k <= npages ->
            BasePagination.shown self npages left_edge left_current
              right_current right_edge k = true ->
            Some k ∈ BasePagination.iter_pages_loop self npages left_edge
                       left_current right_current right_edge (seqZ 1 npages) 0).
  { intros k Hk Hshown.
    assert (Hy : k ∈ yielded_numbers
                       (BasePagination.iter_pages_loop self npages left_edge
                          left_current right_current right_edge
                          (seqZ 1 npages) 0)).
    { rewrite loop_numbers. apply list_elem_of_In, List.filter_In.
      split; [|exact Hshown]. apply list_elem_of_In, elem_of_seqZ. lia. }
    unfold yielded_numbers in Hy. apply list_elem_of_omap in Hy.
    destruct Hy as ([k'|] & Hk' & Heq); simpl in Heq; [|discriminate].
    by injection Heq as ->. }
  unfold BasePagination.shown in Hin.
  repeat split; intros; apply Hin; lia.
Qed.

Lemma iter_pages_shows_current_witness :
  let p := BasePagination.mk_numbers 6 10 115 in
  BasePagination.pages p = Ok 12 /\ 1 <= BasePagination.page p <= 12
  /\ exists out : list (option Z),
       BasePagination.iter_pages p 1 0 1 1 = Ok out
       /\ (0 <= 0 -> 1 <= 1 -> Some (BasePagination.page p) ∈ out)
       /\ (1 <= 1 -> Some 1 ∈ out)
       /\ (1 <= 1 -> Some 12 ∈ out).
Proof.
  intros p. split; [reflexivity|]. split; [simpl; lia|].
  apply (iter_pages_shows_current p 1 0 1 1 12); [reflexivity | simpl; lia].
Defined.

(** X6.  When the two edges together cover the pages, every page is
    yielded and no marker appears. *)
Theorem iter_pages_short_list {P : Type} `{BasePagination.Paginated P}
    (self : P) (left_edge left_current right_current right_edge npages : Z) :
  BasePagination.pages self = Ok npages ->
  npages <= left_edge + right_edge ->
  BasePagination.iter_pages self left_edge left_current right_current
    right_edge = Ok (Some <$> seqZ 1 npages).
Proof.
  intros Hpages Hedges. unfold BasePagination.iter_pages. rewrite Hpages.
  simpl. f_equal.
  destruct (Z.le_gt_cases npages 0) as [Hn | Hn].
  { by rewrite seqZ_nil by lia. }
  replace npages with (Z.of_nat (Z.to_nat npages)) at 2 3 by lia.
  change 1 with (0 + 1) at 1 2.
  apply loop_all_shown. apply Forall_seqZ. intros k Hk.
  unfold BasePagination.shown.
  destruct (Z.leb_spec k left_edge) as [|Hk']; [reflexivity|].
  apply orb_true_iff. right. apply Z.ltb_lt. lia.
Qed.

Lemma iter_pages_short_list_witness :
  let p := BasePagination.mk_numbers 2 10 35 in
  BasePagination.pages p = Ok 4 /\ 4 <= 2 + 2
  /\ BasePagination.iter_pages p 2 2 2 2 = Ok [Some 1; Some 2; Some 3; Some 4].
Proof.
  intros p. split; [reflexivity|]. split; [lia|].
  apply (iter_pages_short_list p 2 2 2 2 4); [reflexivity | lia].
Defined.

(** ** The index and its sections *)

Section SitemapCover.

Lemma max_id_spec (tbl : Orm.table) (c : Z) :
  SitemapIndex.max_id tbl = Some c ->
  (forall r, r ∈ tbl -> Orm.id r <= c) /\ exists r, r ∈ tbl /\ Orm.id r = c.
Proof.
  revert c. induction tbl as [|r0 tbl IH]; intros c; simpl; [discriminate|].
  destruct (SitemapIndex.max_id tbl) as [m|] eqn:Em.
  - intros [= <-]. destruct (IH m eq_refl) as (Hle & r1 & Hr1 & Hid).
    split.
    + intros r Hr. apply elem_of_cons in Hr as [-> | Hr]; [lia|].
      specialize (Hle r Hr). lia.
    + destruct (Z.le_gt_cases (Orm.id r0) m).
      * exists r1. split; [by right | lia].
      * exists r0. split; [by left | lia].
  - intros [= <-]. destruct tbl as [|r1 tbl]; [|simpl in Em;
      destruct (SitemapIndex.max_id tbl); discriminate].
    split.
    + intros r Hr. apply list_elem_of_singleton in Hr as ->. lia.
    + exists r0. split; [by left | reflexivity].
Qed.

Lemma batch_ids_elem (self : SitemapSection.t) (i : Z) :
  i ∈ SitemapSection.batch_ids self <->
  exists r : Orm.record,
    r ∈ SitemapSection.model self /\ Orm.id r = i
    /\ SitemapSection.min_id self < i <= SitemapSection.max_id self
    /\ Orm.matches (SitemapSection.domain self) r = true.
Proof.
  unfold SitemapSection.batch_ids, Orm.search, SitemapSection.batch_domain.
  rewrite list_elem_of_fmap. split.
  - intros (r & -> & Hr). apply list_elem_of_filter in Hr as [Hm Hr].
    rewrite eval_id_bounds in Hm.
    apply andb_true_iff in Hm as [Hlo Hm].
    apply andb_true_iff in Hm as [Hhi Hm].
    exists r. repeat split; try done; lia.
  - intros (r & Hr & <- & [Hlo Hhi] & Hm). exists r. split; [reflexivity|].
    apply list_elem_of_filter. split; [|assumption].
    rewrite eval_id_bounds, Hm.
    apply andb_true_iff. split; [lia|].
    apply andb_true_iff. split; [lia | reflexivity].
Qed.

Lemma page_count_value (ix : SitemapIndex.t) (n : Z) :
  0 < SitemapIndex.batch_size ix < 2 ^ 53 ->
  (forall r, r ∈ SitemapIndex.model ix -> Orm.id r < 2 ^ 53) ->
  (exists r, r ∈ SitemapIndex.model ix /\ 0 < Orm.id r) ->
  Binary64.page_count ix = Ok n ->
  exists c : Z,
    SitemapIndex.count ix = Some c
    /\ c <= n * SitemapIndex.batch_size ix
    /\ (n - 1) * SitemapIndex.batch_size ix < c.
Proof.
  intros Hb Hids (r0 & Hr0 & Hpos). unfold Binary64.page_count.
  destruct (SitemapIndex.count ix) as [c|] eqn:Hc; [|discriminate].
  destruct (max_id_spec _ c Hc) as (Hmax & r1 & Hr1 & Hid1).
  specialize (Hmax r0 Hr0). specialize (Hids r1 Hr1).
  rewrite binary64_pages_exact by lia.
  intros [= <-]. exists c. split; [reflexivity|].
  apply ceiling_bounds. lia.
Qed.

End SitemapCover.

(** X7.  The index and the sections fit together when the ids and the
    batch size are below 2^53, where the division of [page_count] is
    exact: every record of the model with a positive id that satisfies
    the domain of the sections is in the section of exactly one page, and
    the index lists that page. *)
Theorem sitemap_pages_cover_records (ix : SitemapIndex.t) (dom : Orm.domain)
    (changefreq priority : string) (r : Orm.record) (n : Z) :
  let section := fun p : Z =>
    SitemapSection.mk (SitemapIndex.model ix) dom p
      (SitemapIndex.batch_size ix) changefreq priority in
  0 < SitemapIndex.batch_size ix < 2 ^ 53 ->
  (forall r', r' ∈ SitemapIndex.model ix -> Orm.id r' < 2 ^ 53) ->
  Binary64.page_count ix = Ok n ->
  r ∈ SitemapIndex.model ix -> 0 < Orm.id r -> Orm.matches dom r = true ->
  exists p : Z,
    1 <= p <= n
    /\ Orm.id r ∈ SitemapSection.batch_ids (section p)
    /\ forall p' : Z,
         Orm.id r ∈ SitemapSection.batch_ids (section p') -> p' = p.
Proof.
  intros section Hb Hids Hn Hr Hid Hm.
  destruct (page_count_value ix n Hb Hids (ex_intro _ r (conj Hr Hid)) Hn)
    as (c & Hc & Hhi & Hlo).
  destruct (max_id_spec _ c Hc) as [Hmax _]. specialize (Hmax r Hr).
  set (bs := SitemapIndex.batch_size ix) in *.
  destruct (ceiling_bounds (Orm.id r) bs ltac:(lia)) as [Hp_hi Hp_lo].
  set (p := - (- Orm.id r / bs)) in *.
  exists p. split; [nia|]. split.
  - apply batch_ids_elem. exists r.
    unfold SitemapSection.max_id, SitemapSection.min_id. simpl. fold bs.
    repeat split; try done; lia.
  - intros p' Hp'. apply batch_ids_elem in Hp' as (r' & _ & Hid' & Hrange & _).
    unfold SitemapSection.max_id, SitemapSection.min_id in Hrange.
    simpl in Hrange. fold bs in Hrange. nia.
Qed.

Lemma sitemap_pages_cover_records_witness :
  let tbl := [Orm.bare 1; Orm.bare 1000; Orm.bare 1001; Orm.bare 2500] in
  let ix := SitemapIndex.init tbl [] in
  0 < SitemapIndex.batch_size ix < 2 ^ 53
  /\ (forall r', r' ∈ SitemapIndex.model ix -> Orm.id r' < 2 ^ 53)
  /\ Binary64.page_count ix = Ok 3
  /\ exists p : Z,
       1 <= p <= 3
       /\ 1001 ∈ SitemapSection.batch_ids (SitemapSection.init tbl [] p)
       /\ forall p' : Z,
            1001 ∈ SitemapSection.batch_ids (SitemapSection.init tbl [] p') ->
            p' = p.
Proof.
  intros tbl ix.
  assert (Hbatch : 0 < SitemapIndex.batch_size ix < 2 ^ 53)
    by (split; reflexivity).
  assert (Hids : forall r', r' ∈ SitemapIndex.model ix -> Orm.id r' < 2 ^ 53).
  { intros r' Hr'. subst ix tbl. simpl in Hr'.
    repeat (apply elem_of_cons in Hr' as [-> | Hr']; [reflexivity|]).
    by apply elem_of_nil in Hr'. }
  assert (Hpages : Binary64.page_count ix = Ok 3) by (vm_compute; reflexivity).
  assert (Hin : Orm.bare 1001 ∈ SitemapIndex.model ix).
  { subst ix tbl. simpl. do 2 right. left. }
  split; [exact Hbatch|]. split; [exact Hids|]. split; [exact Hpages|].
  exact (sitemap_pages_cover_records ix [] "never" "0.5" (Orm.bare 1001) 3
           Hbatch Hids Hpages Hin eq_refl eq_refl).
Defined.

(** A record whose id no double holds is in a section that the index does
    not count. *)
Example sitemap_page_beyond_the_count :
  let tbl := [Orm.bare 9007199254741001] in
  Binary64.page_count (SitemapIndex.init tbl []) = Ok 9007199254741
  /\ SitemapSection.batch_ids (SitemapSection.init tbl [] 9007199254742)
     = [9007199254741001].
Proof. split; vm_compute; reflexivity. Qed.

(** ** Flashed messages across requests *)

(** X8.  What is flashed after the messages of a request were fetched is
    kept for the next request: its first [get_flashed_messages] returns
    exactly those messages, in the order they were flashed. *)
Theorem flashes_reach_next_request (st0 : Flash.state)
    (calls : list (string * string)) (shown again : bool) :
  Flash.flashes st0 = None ->
  let st1 := (Flash.get_flashed_messages shown st0).2 in
  let st2 := Flash.flash_all calls st1 in
  let next := Flash.mk (Flash.session st2) None in
  (Flash.get_flashed_messages again next).1
  = Flash.returned again
      ((fun '(message, category) => (category, message)) <$> calls)
  /\ Flash.session (Flash.get_flashed_messages again next).2 !! "_flashes"
     = None.
Proof.
  intros Hf st1 st2 next.
  assert (Hst1 : Flash.queue_of st1 = []).
  { subst st1. rewrite (get_first shown st0 Hf). unfold Flash.queue_of. simpl.
    by rewrite lookup_delete_eq. }
  destruct (flash_all_spec calls st1) as (_ & _ & Hq & _).
  fold st2 in Hq. rewrite Hst1 in Hq. simpl in Hq.
  rewrite (get_first again next eq_refl).
  change (Flash.queue_of next) with (Flash.queue_of st2). rewrite Hq.
  split; [reflexivity|]. simpl. apply lookup_delete_eq.
Qed.

Lemma flashes_reach_next_request_witness :
  let st0 := Flash.mk {["_flashes" := [("message", "old")]]} None in
  Flash.flashes st0 = None
  /\ (Flash.get_flashed_messages true
        (Flash.mk
           (Flash.session
              (Flash.flash_all [("saved", "info")]
                 (Flash.get_flashed_messages false st0).2)) None)).1
     = Flash.Pairs [("info", "saved")].
Proof.
  intros st0. split; [reflexivity|].
  apply (flashes_reach_next_request st0 [("saved", "info")] false true).
  reflexivity.
Defined.

(** ** The shape of a slug *)

Section SlugShape.
Import Text Slug.

Lemma hyphenate_in_match_head (s : list char) :
  head (hyphenate_from true s) <> Some hyphen.
Proof.
  induction s as [|c s IH]; simpl; [discriminate|].
  destruct (is_separator c) eqn:Ec; simpl; [exact IH|].
  intros [= ->]. discriminate.
Qed.

Lemma hyphenate_single_hyphens (s : list char) (b : bool)
    (pre post : list char) :
  hyphenate_from b s <> pre ++ hyphen :: hyphen :: post.
Proof.
  revert b pre. induction s as [|c s IH]; intros b pre; simpl.
  - by destruct pre.
  - destruct (is_separator c) eqn:Ec.
    + destruct b; simpl; [apply IH|].
      destruct pre as [|p pre]; simpl; intros E.
      * injection E as E. pose proof (hyphenate_in_match_head s) as Hh.
        rewrite E in Hh. by apply Hh.
      * injection E as _ E. by apply IH in E.
    + destruct pre as [|p pre]; simpl; intros E.
      * injection E as -> _. discriminate.
      * injection E as _ E. by apply IH in E.
Qed.

End SlugShape.

(** X9.  A slug is made of digits, lower-case letters, underscores and
    hyphens only, and never has two hyphens in a row, whatever the text
    and whatever the normalisation table. *)
Theorem slugify_shape (nfkd : list Text.char -> list Text.char)
    (x : Slug.basestring) :
  exists y : list Text.char,
    Slug.slugify nfkd x = Ok y
    /\ Forall (fun c => is_slug_char c = true) y
    /\ forall pre post, y <> pre ++ Text.hyphen :: Text.hyphen :: post.
Proof.
  destruct (slugify_value nfkd x) as (value & Hx & Hvalue).
  exists (Slug.hyphenate_from false value). split; [exact Hx|]. split.
  - by apply hyphenate_slug_chars.
  - intros pre post. apply hyphenate_single_hyphens.
Qed.

(** ** The host of a request *)

Section HostName.
Import Text Host.

Lemma split_first (sep : char) (s : list char) :
  exists (name : list char) (pieces : list (list char)),
    split sep s = name :: pieces
    /\ (sep ∉ name)
    /\ (pieces = [] /\ s = name
        \/ exists rest, pieces = split sep rest /\ s = name ++ sep :: rest).
Proof.
  induction s as [|c s (name & pieces & E & Hname & Hrest)]; simpl.
  - exists [], []. split; [reflexivity|]. split; [apply not_elem_of_nil|].
    by left.
  - destruct (N.eqb_spec c sep) as [-> | Hne].
    + exists [], (split sep s). split; [reflexivity|].
      split; [apply not_elem_of_nil|]. right. by exists s.
    + rewrite E. exists (c :: name), pieces. split; [reflexivity|].
      split; [by apply not_elem_of_cons|].
      destruct Hrest as [[-> ->] | (rest & -> & ->)]; [by left|].
      right. by exists rest.
Qed.

End HostName.

(** X10.  [get_website_from_host] always answers, with the part of the
    host before its first colon: the name has no colon, and the host is
    the name alone or the name, a colon and the rest. *)
Theorem get_website_from_host_name (http_host : list Text.char) :
  exists name : list Text.char,
    Host.get_website_from_host http_host = Ok name
    /\ (Host.colon ∉ name)
    /\ (http_host = name
        \/ exists rest, http_host = name ++ Host.colon :: rest).
Proof.
  destruct (split_first Host.colon http_host)
    as (name & pieces & E & Hname & Hrest).
  exists name. unfold Host.get_website_from_host. rewrite E.
  split; [reflexivity|]. split; [exact Hname|].
  destruct Hrest as [[_ ->] | (rest & _ & ->)]; [by left|].
  right. by exists rest.
Qed.

Example get_website_from_host_port :
  Host.get_website_from_host (Text.of_string "shop.example.com:8080")
  = Ok (Text.of_string "shop.example.com").
Proof. reflexivity. Qed.

(** ** Fetching the records of a page *)

Section DomainFetch.
Variable search :
  Orm.domain -> Z -> option Z -> option (list (string * string)) -> list Z.

Lemma slice_window {A : Type} (l : list A) (start size : Z) :
  0 <= start -> 0 <= size ->
  Slice.slice l start (start + size)
  = take (Z.to_nat size) (drop (Z.to_nat start) l).
Proof.
  intros Hstart Hsize. unfold Slice.slice, Slice.clamp.
  set (len := Z.of_nat (length l)).
  destruct (Z.ltb_spec start 0) as [|_]; [lia|].
  destruct (Z.ltb_spec (start + size) 0) as [|_]; [lia|].
  destruct (Z.le_gt_cases len start) as [Hout | Hin].
  - rewrite !Z.min_r by lia.
    rewrite (drop_ge _ (Z.to_nat start)) by (subst len; lia).
    rewrite drop_ge by (subst len; lia). by rewrite !take_nil.
  - rewrite (Z.min_l start) by lia.
    destruct (Z.le_gt_cases (start + size) len) as [Hfit | Hcut].
    + rewrite Z.min_l by lia. f_equal. lia.
    + rewrite Z.min_r by lia.
      rewrite !take_ge; [reflexivity | |]; rewrite length_drop;
        subst len; lia.
Qed.

(** X11.  With a domain of ids and no order, the pages are read off the
    list of ids without any search: page [p] browses the [p]-th window of
    [per_page] ids, and the windows of the pages 1 to [pages] make up the
    list, every id once and in order. *)
Theorem ids_domain_items_partition (self : Pagination.t) (ids : list Z) (n : Z) :
  Pagination.domain self = [("id", "in", Orm.VList ids)] ->
  Pagination.order self = None ->
  0 < Pagination.per_page self ->
  BasePagination.pages
    (BasePagination.mk_numbers 1 (Pagination.per_page self)
       (Z.of_nat (length ids))) = Ok n ->
  let window := fun p : Z =>
    take (Z.to_nat (Pagination.per_page self))
      (drop (Z.to_nat ((p - 1) * Pagination.per_page self)) ids) in
  (forall p : Z, 1 <= p ->
     DomainItems.items search (DomainItems.at_page self p)
     = ([DomainItems.Browse (Orm.VList (window p))], Ok (Orm.VList (window p))))
  /\ concat (window <$> seqZ 1 n) = ids
  /\ DomainItems.all_items search self
     = ([DomainItems.Browse (Orm.VList ids)], Ok (Orm.VList ids)).
Proof.
  intros Hd Ho Hper Hn window.
  assert (Hids : forall p, Pagination.ids_domain (DomainItems.at_page self p) = true).
  { intros p. unfold Pagination.ids_domain. simpl. by rewrite Hd, Ho. }
  split; [|split].
  - intros p Hp. unfold DomainItems.items. rewrite Hids.
    unfold Pagination.domain_0_2, DomainItems.offset. simpl. rewrite Hd. simpl.
    rewrite slice_window by nia. reflexivity.
  - rewrite pages_value in Hn by exact Hper. injection Hn as <-.
    destruct (ceiling_bounds (Z.of_nat (length ids)) (Pagination.per_page self) Hper)
      as [Hhi Hlo]. simpl in Hhi, Hlo.
    set (m := - (- Z.of_nat (length ids) / Pagination.per_page self)) in *.
    unfold seqZ. rewrite <- list_fmap_compose.
    rewrite (list_fmap_ext _
               (fun i => take (Z.to_nat (Pagination.per_page self))
                           (drop (i * Z.to_nat (Pagination.per_page self)) ids))).
    + rewrite windows_concat. apply take_ge.
      destruct (Z.le_gt_cases m 0) as [Hm0 | Hm0].
      * assert (length ids = 0)%nat by nia. lia.
      * apply Nat2Z.inj_le. rewrite Nat2Z.inj_mul, !Z2Nat.id by lia. lia.
    + intros _ i _. unfold compose, window. do 2 f_equal.
      rewrite Z2Nat.inj_mul by lia. f_equal; lia.
  - unfold DomainItems.all_items, Pagination.ids_domain, Pagination.domain_0_2.
    by rewrite Hd, Ho.
Qed.

End DomainFetch.

Lemma ids_domain_items_partition_witness :
  let self := Pagination.init [] [("id", "in", Orm.VList [4; 8; 15; 16; 23])]
                1 2 None in
  let search := fun (_ : Orm.domain) (_ : Z) (_ : option Z)
                    (_ : option (list (string * string))) => @nil Z in
  DomainItems.items search (DomainItems.at_page self 3)
  = ([DomainItems.Browse (Orm.VList [23])], Ok (Orm.VList [23])).
Proof.
  intros self search.
  destruct (ids_domain_items_partition search self [4; 8; 15; 16; 23] 3
              eq_refl eq_refl eq_refl eq_refl)
    as (Hitems & _ & _).
  apply (Hitems 3). lia.
Defined.

(** With an order the same domain goes to the ORM, offset and limit
    included. *)
Example ordered_ids_domain_is_searched :
  let d := [("id", "in", Orm.VList [4; 8; 15])] in
  let order := Some [("name", "ASC")] in
  DomainItems.items (fun _ _ _ _ => [8; 4])
    (Pagination.init [] d 2 2 order)
  = ([DomainItems.Search d 2 (Some 2) order;
      DomainItems.Browse (Orm.VList [8; 4])],
     Ok (Orm.VList [8; 4])).
Proof. reflexivity. Qed.

Section QueryFetch.
Variable fetchall : string -> list (list Z).

Lemma first_column_spec (rows : list (list Z)) :
  (Forall (fun row => row <> []) rows ->
   QueryPagination.first_column rows = ([], Ok (omap head rows))
   /\ length (omap head rows) = length rows)
  /\ (Exists (fun row => row = []) rows ->
      QueryPagination.first_column rows = ([], Raise IndexError)).
Proof.
  induction rows as [|[|v row] rows [IHok IHbad]]; simpl.
  - split; [done|]. intros Hex. inversion Hex.
  - split; [|done]. intros Hall. apply Forall_cons in Hall as [Hrow _]. done.
  - split.
    + intros Hall. apply Forall_cons in Hall as [_ Hall].
      destruct (IHok Hall) as [Hcol Hlen]. rewrite Hcol. simpl.
      split; [reflexivity|]. f_equal. exact Hlen.
    + intros Hex. apply Exists_cons in Hex as [Hex | Hex]; [discriminate|].
      by rewrite (IHbad Hex).
Qed.

(** X12.  The page fetch hands to [browse] one id for each row the
    statement returned, its first column, in the order of the rows; a row
    without columns makes it raise [IndexError] with nothing browsed.  The
    count fetch returns the first column of the first row and raises
    [TypeError] when there is no row. *)
Theorem query_items_follow_rows (self : QueryPagination.t) :
  let sql :=
    (QueryPagination.search_query self
     ++ " LIMIT " ++ Py.fmt_d (QueryPagination.per_page self)
     ++ " OFFSET " ++ Py.fmt_d (QueryPagination.offset self))%string in
  (Forall (fun row => row <> []) (fetchall sql) ->
   QueryPagination.items fetchall self
   = ([CursorExecute sql; OrmBrowse (omap head (fetchall sql))],
      Ok (omap head (fetchall sql)))
   /\ length (omap head (fetchall sql)) = length (fetchall sql))
  /\ (Exists (fun row => row = []) (fetchall sql) ->
      QueryPagination.items fetchall self
      = ([CursorExecute sql], Raise IndexError))
  /\ (fetchall (QueryPagination.count_query self) = [] ->
      QueryPagination.count fetchall self
      = ([CursorExecute (QueryPagination.count_query self)], Raise TypeError))
  /\ (forall v row rows,
        fetchall (QueryPagination.count_query self) = (v :: row) :: rows ->
        QueryPagination.count fetchall self
        = ([CursorExecute (QueryPagination.count_query self)], Ok v)).
Proof.
  intros sql.
  assert (Hitems : QueryPagination.items fetchall self
                   = (run rv <- QueryPagination.execute_fetchall_0 fetchall sql;
                      traced_call (OrmBrowse rv) rv)).
  { reflexivity. }
  destruct (first_column_spec (fetchall sql)) as [Hok Hbad].
  split; [|split; [|split]].
  - intros Hall. destruct (Hok Hall) as [Hcol Hlen]. split; [|exact Hlen].
    rewrite Hitems. unfold QueryPagination.execute_fetchall_0, traced_call.
    simpl. by rewrite Hcol.
  - intros Hex. rewrite Hitems.
    unfold QueryPagination.execute_fetchall_0, traced_call. simpl.
    by rewrite (Hbad Hex).
  - intros Hrows. unfold QueryPagination.count,
      QueryPagination.execute_fetchone_0, traced_call. simpl. by rewrite Hrows.
  - intros v row rows Hrows. unfold QueryPagination.count,
      QueryPagination.execute_fetchone_0, traced_call. simpl. by rewrite Hrows.
Qed.

End QueryFetch.

Lemma query_items_follow_rows_witness :
  let self := QueryPagination.mk [] "SELECT id FROM t" "SELECT count(*) FROM t"
                2 2 in
  let fetchall := fun sql : string =>
    if String.eqb sql "SELECT id FROM t LIMIT 2 OFFSET 2"
    then [[7; 1]; [9; 0]] else [] in
  QueryPagination.items fetchall self
  = ([CursorExecute "SELECT id FROM t LIMIT 2 OFFSET 2"; OrmBrowse [7; 9]],
     Ok [7; 9])
  /\ QueryPagination.count fetchall self
     = ([CursorExecute "SELECT count(*) FROM t"], Raise TypeError).
Proof.
  intros self fetchall.
  destruct (query_items_follow_rows fetchall self) as (Hok & _ & Hnone & _).
  split.
  - apply Hok. repeat constructor; discriminate.
  - apply Hnone. reflexivity.
Defined.

(** ** One query for a Sphinx pagination *)

Section SphinxOnce.
Import SphinxPagination SphinxCached.
Context {C R : Type} `{SphinxClientAPI C R}.


End SphinxOnce.



(** A query that fails is not stored: the next read asks again. *)
Example sphinx_failure_is_not_cached :
  let self :=
    SphinxPagination.mk [] "shoes" "articles"
      (SphinxPagination.mk_toy (Some ("localhost", 3312)) (0, 20) "") 1 10 in
  (SphinxCached.do_reads [SphinxCached.ReadCount; SphinxCached.ReadItems]
     (SphinxCached.fresh self)).2
  = 2%nat.
Proof. reflexivity. Qed.

(** ** Bread crumbs *)

Section CrumbsFacts.
Import Crumbs.
Variable url_for : string -> option attr -> string.
Variable records : store.
Variables (endpoint : string) (max_depth : Z).
Variables (field_map : gmap string string) (root_ids : list Z).

Local Abbreviation walk := (recurse url_for records endpoint max_depth
                              field_map root_ids).

Lemma recurse_length (fuel : nat) (node : attr) (level : Z)
    (items : list (string * attr)) :
  walk fuel node level = inr items ->
  Z.of_nat (length items) <= Z.max 0 (max_depth - level + 1).
Proof.
  revert node level items. induction fuel as [|fuel IH]; intros node level items;
    simpl; destruct ((max_depth <? level) || negb (truthy node)) eqn:Estop;
    try (intros [= <-]; simpl; lia); try discriminate.
  apply orb_false_iff in Estop as [Hlevel _]. apply Z.ltb_ge in Hlevel.
  destruct (getattr records node (field field_map "uri_field")) as [|uri];
    simpl; [discriminate|].
  destruct (getattr records node (field field_map "title_field")) as [|title];
    simpl; [discriminate|].
  destruct (is_root root_ids node); [intros [= <-]; simpl; lia|].
  destruct (getattr records node (field field_map "parent_field")) as [|parent];
    simpl; [discriminate|].
  destruct (walk fuel parent (level + 1)) as [|above] eqn:Eabove;
    simpl; [discriminate|].
  intros [= <-]. apply IH in Eabove. simpl. lia.
Qed.

Lemma getattr_error (node : attr) (name : string) (e : error) :
  getattr records node name = inl e -> e = AttributeError name.
Proof.
  unfold getattr. destruct node as [|[i|]]; try congruence.
  destruct (records !! i) as [n|]; [|congruence].
  destruct (attrs n !! name); congruence.
Qed.

Lemma recurse_has_fuel (fuel : nat) (node : attr) (level : Z) :
  max_depth - level + 1 <= Z.of_nat fuel ->
  walk fuel node level <> inl RecursionError.
Proof.
  revert node level. induction fuel as [|fuel IH]; intros node level Hfuel;
    simpl; destruct ((max_depth <? level) || negb (truthy node)) eqn:Estop;
    try discriminate.
  - apply orb_false_iff in Estop as [Hlevel _]. apply Z.ltb_ge in Hlevel. lia.
  - destruct (getattr records node (field field_map "uri_field"))
      as [e|uri] eqn:E; simpl;
      [apply getattr_error in E; subst; discriminate|].
    destruct (getattr records node (field field_map "title_field"))
      as [e|title] eqn:E'; simpl;
      [apply getattr_error in E'; subst; discriminate|].
    destruct (is_root root_ids node); [discriminate|].
    destruct (getattr records node (field field_map "parent_field"))
      as [e|parent] eqn:E''; simpl;
      [apply getattr_error in E''; subst; discriminate|].
    specialize (IH parent (level + 1) ltac:(lia)).
    destruct (walk fuel parent (level + 1)) as [e|above]; simpl;
      [congruence | discriminate].
Qed.

(** The walk starts with the record it is given. *)
Lemma recurse_first (fuel : nat) (node : attr) (level : Z)
    (items : list (string * attr)) :
  walk fuel node level = inr items ->
  truthy node = true -> level <= max_depth ->
  exists uri title above,
    getattr records node (field field_map "uri_field") = inr uri
    /\ getattr records node (field field_map "title_field") = inr title
    /\ items = (url_for endpoint (Some uri), title) :: above.
Proof.
  intros Hwalk Hnode Hlevel. destruct fuel as [|fuel]; simpl in Hwalk;
    rewrite Hnode in Hwalk;
    destruct (Z.ltb_spec max_depth level); try lia; simpl in Hwalk;
    [discriminate|].
  destruct (getattr records node (field field_map "uri_field")) as [|uri];
    simpl in Hwalk; [discriminate|].
  destruct (getattr records node (field field_map "title_field")) as [|title];
    simpl in Hwalk; [discriminate|].
  exists uri, title.
  destruct (is_root root_ids node).
  - injection Hwalk as <-. by exists [].
  - destruct (getattr records node (field field_map "parent_field")) as [|parent];
      simpl in Hwalk; [discriminate|].
    destruct (walk fuel parent (level + 1)) as [|above];
      simpl in Hwalk; [discriminate|].
    injection Hwalk as <-. by exists above.
Qed.

Local Abbreviation walk_within := (recurse_within url_for records endpoint
                                     max_depth field_map root_ids).

(** With room on the stack the bounded walk is the walk. *)
Lemma recurse_within_room (frames fuel : nat) (node : attr) (level : Z) :
  Z.max 0 (max_depth - level + 1) < Z.of_nat frames ->
  max_depth - level + 1 <= Z.of_nat fuel ->
  walk_within frames node level = walk fuel node level.
Proof.
  revert fuel node level.
  induction frames as [|frames IH]; intros fuel node level Hframes Hfuel;
    [simpl in Hframes; lia|].
  simpl. destruct fuel as [|fuel]; simpl;
    destruct ((max_depth <? level) || negb (truthy node)) eqn:Estop;
    try reflexivity.
  - apply orb_false_iff in Estop as [Hlevel _]. apply Z.ltb_ge in Hlevel.
    simpl in Hfuel. lia.
  - apply orb_false_iff in Estop as [Hlevel _]. apply Z.ltb_ge in Hlevel.
    destruct (getattr records node (field field_map "uri_field"));
      simpl; [reflexivity|].
    destruct (getattr records node (field field_map "title_field"));
      simpl; [reflexivity|].
    destruct (is_root root_ids node); [reflexivity|].
    destruct (getattr records node (field field_map "parent_field"))
      as [|parent]; simpl; [reflexivity|].
    rewrite (IH fuel parent (level + 1)) by lia. reflexivity.
Qed.

Lemma recurse_within_length (frames : nat) (node : attr) (level : Z)
    (items : list (string * attr)) :
  walk_within frames node level = inr items ->
  Z.of_nat (length items) <= Z.max 0 (max_depth - level + 1).
Proof.
  revert node level items.
  induction frames as [|frames IH]; intros node level items; simpl;
    [discriminate|].
  destruct ((max_depth <? level) || negb (truthy node)) eqn:Estop;
    [intros [= <-]; simpl; lia|].
  apply orb_false_iff in Estop as [Hlevel _]. apply Z.ltb_ge in Hlevel.
  destruct (getattr records node (field field_map "uri_field")) as [|uri];
    simpl; [discriminate|].
  destruct (getattr records node (field field_map "title_field")) as [|title];
    simpl; [discriminate|].
  destruct (is_root root_ids node); [intros [= <-]; simpl; lia|].
  destruct (getattr records node (field field_map "parent_field")) as [|parent];
    simpl; [discriminate|].
  destruct (walk_within frames parent (level + 1)) as [|above] eqn:Eabove;
    simpl; [discriminate|].
  intros [= <-]. apply IH in Eabove. simpl. lia.
Qed.

(** The walk is never more than [max_depth + 1] calls deep: it runs out of
    stack only when the stack has no room for that many. *)
Lemma recurse_within_depth (frames : nat) (node : attr) (level : Z) :
  walk_within frames node level = inl RecursionError ->
  Z.of_nat frames <= Z.max 0 (max_depth - level + 1).
Proof.
  revert node level.
  induction frames as [|frames IH]; intros node level; simpl; [lia|].
  destruct ((max_depth <? level) || negb (truthy node)) eqn:Estop;
    [discriminate|].
  apply orb_false_iff in Estop as [Hlevel _]. apply Z.ltb_ge in Hlevel.
  destruct (getattr records node (field field_map "uri_field"))
    as [e|uri] eqn:E; simpl;
    [apply getattr_error in E; subst; discriminate|].
  destruct (getattr records node (field field_map "title_field"))
    as [e|title] eqn:E'; simpl;
    [apply getattr_error in E'; subst; discriminate|].
  destruct (is_root root_ids node); [discriminate|].
  destruct (getattr records node (field field_map "parent_field"))
    as [e|parent] eqn:E''; simpl;
    [apply getattr_error in E''; subst; discriminate|].
  destruct (walk_within frames parent (level + 1)) as [e|above] eqn:Eabove;
    simpl; [|discriminate].
  intros [= ->]. apply IH in Eabove. lia.
Qed.

End CrumbsFacts.

(** With room for [max_depth + 1] nested calls, [make_crumbs_within] is
    [make_crumbs]. *)
Lemma make_crumbs_within_room
    (url_for : string -> option Crumbs.attr -> string)
    (records : Crumbs.store) (frames : nat) (browse_record : Crumbs.attr)
    (endpoint : string) (add_home : bool) (max_depth : Z)
    (field_map_changes : option (list (string * string)))
    (root_ids : option (list Z)) :
  Z.max 0 max_depth < Z.of_nat frames ->
  Crumbs.make_crumbs_within url_for records frames browse_record endpoint
    add_home max_depth field_map_changes root_ids
  = Crumbs.make_crumbs url_for records browse_record endpoint add_home
      max_depth field_map_changes root_ids.
Proof.
  intros Hroom. unfold Crumbs.make_crumbs_within, Crumbs.make_crumbs.
  rewrite (recurse_within_room _ _ _ _ _ _ frames (Z.to_nat max_depth))
    by lia.
  reflexivity.
Qed.

(** X14.  [make_crumbs] is never more than [max_depth + 1] calls of
    [recurse] deep, parent links that run in a circle included.  Whatever
    room the stack has, it returns at most [max_depth] crumbs, and one
    more for the home page, or raises the [AttributeError] of a missing
    field, or runs out of stack; and it runs out of stack only when there
    is no room for [max_depth + 1] nested calls. *)
Theorem make_crumbs_bounded (url_for : string -> option Crumbs.attr -> string)
    (records : Crumbs.store) (frames : nat) (browse_record : Crumbs.attr)
    (endpoint : string) (add_home : bool) (max_depth : Z)
    (field_map_changes : option (list (string * string)))
    (root_ids : option (list Z)) :
  match Crumbs.make_crumbs_within url_for records frames browse_record
          endpoint add_home max_depth field_map_changes root_ids with
  | inr items =>
      (length items <= Z.to_nat max_depth + (if add_home then 1 else 0))%nat
  | inl (Crumbs.AttributeError _) => True
  | inl Crumbs.RecursionError => Z.of_nat frames <= Z.max 0 max_depth
  end.
Proof.
  unfold Crumbs.make_crumbs_within.
  set (fm := match field_map_changes with Some _ => _ | None => _ end).
  pose proof (recurse_within_depth url_for records endpoint max_depth fm
                (default [] root_ids) frames browse_record 1) as Hdepth.
  pose proof (recurse_within_length url_for records endpoint max_depth fm
                (default [] root_ids) frames browse_record 1) as Hlen.
  destruct (Crumbs.recurse_within url_for records endpoint max_depth fm
              (default [] root_ids) frames browse_record 1)
    as [[name|]|items]; simpl; [exact I | |].
  - specialize (Hdepth eq_refl). lia.
  - specialize (Hlen items eq_refl). rewrite length_rev.
    destruct add_home; [rewrite length_app; simpl|]; lia.
Qed.

(** Two records that are each other's parent, a depth of 2000 and a stack
    with room for 1000 calls: the walk runs out of stack.  With room for
    2001 it returns the 2000 crumbs. *)
Example make_crumbs_out_of_stack :
  Crumbs.make_crumbs_within Crumbs.sample_url_for Crumbs.sample_store 1000
    (Crumbs.ARef (Some 8)) "page" false 2000 None None
  = inl Crumbs.RecursionError
  /\ match Crumbs.make_crumbs_within Crumbs.sample_url_for
             Crumbs.sample_store 2001 (Crumbs.ARef (Some 8)) "page" false
             2000 None None with
     | inr items => length items = 2000%nat
     | inl _ => False
     end.
Proof. split; vm_compute; reflexivity. Qed.

(** Two records that are each other's parent: the walk stops at the depth
    asked for. *)
Example make_crumbs_on_a_cycle :
  Crumbs.make_crumbs Crumbs.sample_url_for Crumbs.sample_store
    (Crumbs.ARef (Some 8)) "page" false 3 None None
  = inr [("page/a", Crumbs.AText "A"); ("page/b", Crumbs.AText "B");
         ("page/a", Crumbs.AText "A")].
Proof. vm_compute. reflexivity. Qed.

(** X15.  The crumbs run from the top down: with [add_home] the first one
    is the home page, and the last one is the record the crumbs were asked
    for, with the url of its uri and its title. *)
Theorem make_crumbs_ends (url_for : string -> option Crumbs.attr -> string)
    (records : Crumbs.store) (browse_record : Crumbs.attr) (endpoint : string)
    (add_home : bool) (max_depth : Z)
    (field_map_changes : option (list (string * string)))
    (root_ids : option (list Z)) (items : list (string * Crumbs.attr)) :
  Crumbs.make_crumbs url_for records browse_record endpoint add_home
    max_depth field_map_changes root_ids = inr items ->
  let field_map :=
    match field_map_changes with
    | Some changes => Crumbs.update Crumbs.default_field_map changes
    | None => Crumbs.default_field_map
    end in
  (add_home = true ->
   head items = Some (url_for "nereid.website.home" None, Crumbs.AText "Home"))
  /\ (Crumbs.truthy browse_record = true -> 1 <= max_depth ->
      exists uri title,
        Crumbs.getattr records browse_record
          (Crumbs.field field_map "uri_field") = inr uri
        /\ Crumbs.getattr records browse_record
             (Crumbs.field field_map "title_field") = inr title
        /\ last items = Some (url_for endpoint (Some uri), title)).
Proof.
  intros Hitems field_map. unfold Crumbs.make_crumbs in Hitems.
  fold field_map in Hitems.
  destruct (Crumbs.recurse url_for records endpoint max_depth field_map
              (default [] root_ids) (Z.to_nat max_depth) browse_record 1)
    as [e|walked] eqn:Ewalk; simpl in Hitems; [discriminate|].
  injection Hitems as <-. split.
  - intros ->. by rewrite rev_app_distr.
  - intros Hnode Hdepth.
    destruct (recurse_first _ _ _ _ _ _ _ _ _ _ Ewalk Hnode Hdepth)
      as (uri & title & above & Huri & Htitle & ->).
    exists uri, title. split; [exact Huri|]. split; [exact Htitle|].
    assert (Hlast : forall rest,
              last (rev ((url_for endpoint (Some uri), title) :: rest))
              = Some (url_for endpoint (Some uri), title))
      by (intros rest; cbn [rev]; apply last_snoc).
    destruct add_home; apply Hlast.
Qed.

Lemma make_crumbs_ends_witness :
  let items :=
    [("nereid.website.home", Crumbs.AText "Home");
     ("page/shop", Crumbs.AText "Shop"); ("page/shoes", Crumbs.AText "Shoes");
     ("page/boots", Crumbs.AText "Boots")] in
  Crumbs.make_crumbs Crumbs.sample_url_for Crumbs.sample_store
    (Crumbs.ARef (Some 3)) "page" true 10 None None = inr items
  /\ head items = Some ("nereid.website.home", Crumbs.AText "Home")
  /\ exists uri title,
       Crumbs.getattr Crumbs.sample_store (Crumbs.ARef (Some 3)) "uri" = inr uri
       /\ Crumbs.getattr Crumbs.sample_store (Crumbs.ARef (Some 3)) "title"
          = inr title
       /\ last items = Some (Crumbs.sample_url_for "page" (Some uri), title).
Proof.
  intros items.
  assert (Hitems : Crumbs.make_crumbs Crumbs.sample_url_for Crumbs.sample_store
                     (Crumbs.ARef (Some 3)) "page" true 10 None None
                   = inr items) by (vm_compute; reflexivity).
  destruct (make_crumbs_ends _ _ _ _ _ _ _ _ _ Hitems) as [Hhome Hlast].
  split; [exact Hitems|]. split; [exact (Hhome eq_refl)|].
  apply Hlast; [reflexivity | lia].
Defined.

(** X16.  The walk stops at a root: for a record whose id is among
    [root_ids] the crumbs are the home page and that record, and its
    parent field is not read, so it need not even be there. *)
Theorem make_crumbs_stops_at_root
    (url_for : string -> option Crumbs.attr -> string)
    (records : Crumbs.store) (i : Z) (n : Crumbs.node) (endpoint : string)
    (add_home : bool) (max_depth : Z) (root_ids : list Z)
    (uri title : Crumbs.attr) :
  1 <= max_depth -> i ∈ root_ids ->
  records !! i = Some n ->
  Crumbs.attrs n !! "uri" = Some uri ->
  Crumbs.attrs n !! "title" = Some title ->
  Crumbs.make_crumbs url_for records (Crumbs.ARef (Some i)) endpoint add_home
    max_depth None (Some root_ids)
  = inr ((if add_home
          then [(url_for "nereid.website.home" None, Crumbs.AText "Home")]
          else [])
         ++ [(url_for endpoint (Some uri), title)]).
Proof.
  intros Hdepth Hroot Hn Huri Htitle. unfold Crumbs.make_crumbs.
  destruct (Z.to_nat max_depth) as [|fuel] eqn:Efuel; [lia|].
  simpl. destruct (Z.ltb_spec max_depth 1); [lia|]. simpl.
  unfold Crumbs.getattr. rewrite Hn.
  change (Crumbs.field Crumbs.default_field_map "uri_field") with "uri".
  change (Crumbs.field Crumbs.default_field_map "title_field") with "title".
  rewrite Huri, Htitle. simpl.
  rewrite bool_decide_eq_true_2 by assumption. simpl.
  by destruct add_home.
Qed.

Lemma make_crumbs_stops_at_root_witness :
  Crumbs.make_crumbs Crumbs.sample_url_for Crumbs.sample_store
    (Crumbs.ARef (Some 2)) "page" true 10 None (Some [2; 7])
  = inr [("nereid.website.home", Crumbs.AText "Home");
         ("page/shoes", Crumbs.AText "Shoes")].
Proof.
  apply (make_crumbs_stops_at_root Crumbs.sample_url_for Crumbs.sample_store 2
           (Crumbs.sample_record "shoes" "Shoes" (Some 1)) "page" true 10
           [2; 7] (Crumbs.AText "shoes") (Crumbs.AText "Shoes"));
    [lia | | reflexivity | reflexivity | reflexivity].
  apply list_elem_of_here.
Defined.

(** ** Redirects to https *)

Section Replace.
Import Text Web.

Lemma startswith_spec (prefix s : list char) :
  startswith prefix s = true <-> exists rest, s = prefix ++ rest.
Proof.
  revert s. induction prefix as [|p prefix IH]; intros s; simpl.
  - split; [intros _; by exists s | done].
  - destruct s as [|c s].
    + split; [done | intros [rest Hrest]; discriminate].
    + rewrite andb_true_iff, N.eqb_eq, IH. split.
      * intros [-> [rest ->]]. by exists rest.
      * intros [rest [= -> ->]]. split; [done | by exists rest].
Qed.

Lemma replace_skip (old new s : list char) (skip : nat) :
  replace_from skip old new s = replace_from 0 old new (drop skip s).
Proof.
  revert skip. induction s as [|c s IH]; intros [|skip]; simpl; done.
Qed.

(** A match is replaced, and the scan goes on behind it. *)
Lemma replace_match (old new rest : list char) :
  old <> [] ->
  replace_from 0 old new (old ++ rest) = new ++ replace_from 0 old new rest.
Proof.
  intros Hold. destruct old as [|o old]; [done|]. simpl.
  rewrite N.eqb_refl. simpl.
  assert (Hstarts : startswith old (old ++ rest) = true)
    by (apply startswith_spec; by exists rest).
  rewrite Hstarts. f_equal. rewrite replace_skip. f_equal.
  rewrite Nat.sub_0_r. by rewrite drop_app_length.
Qed.

Lemma replace_no_match (old new : list char) (c : char) (s : list char) :
  startswith old (c :: s) = false ->
  replace_from 0 old new (c :: s) = c :: replace_from 0 old new s.
Proof. intros Hno. simpl replace_from. by rewrite Hno. Qed.

Lemma http_chars : http = [104; 116; 116; 112; 58; 47; 47]%N.
Proof. reflexivity. Qed.

Lemma https_chars : https = [104; 116; 116; 112; 115; 58; 47; 47]%N.
Proof. reflexivity. Qed.

(** Characters other than the first one of [http://] come out of the scan
    only as copies. *)
Lemma replace_copies (w s out : list char) :
  Forall (fun c => c <> 104%N) w ->
  replace_from 0 http https s = w ++ out ->
  exists s', s = w ++ s' /\ replace_from 0 http https s' = out.
Proof.
  intros Hw. revert s. induction Hw as [|c w Hc Hw IH]; intros s Hs; simpl in *.
  - by exists s.
  - destruct s as [|a s]; [discriminate|].
    destruct (startswith http (a :: s)) eqn:Estart.
    + apply startswith_spec in Estart as [rest Hrest]. rewrite Hrest in Hs.
      rewrite replace_match in Hs by discriminate.
      rewrite https_chars in Hs. injection Hs as Hs _. congruence.
    + rewrite replace_no_match in Hs by assumption.
      injection Hs as -> Hs. destruct (IH s Hs) as (s' & -> & Hout).
      by exists s'.
Qed.

(** Nothing in the outcome of the replacement starts with [http://]. *)
Lemma replace_no_http_at (n : nat) (s pre t : list char) :
  (length s <= n)%nat ->
  replace_from 0 http https s = pre ++ t ->
  startswith http t = false.
Proof.
  revert s pre t. induction n as [|n IH]; intros s pre t Hlen Hs.
  - destruct s; [|simpl in Hlen; lia]. simpl in Hs.
    symmetry in Hs. apply app_eq_nil in Hs as [_ ->]. reflexivity.
  - destruct s as [|c s].
    { simpl in Hs. symmetry in Hs. apply app_eq_nil in Hs as [_ ->].
      reflexivity. }
    simpl in Hlen.
    destruct (startswith http (c :: s)) eqn:Estart.
    + apply startswith_spec in Estart as [rest Hrest]. rewrite Hrest in Hs.
      rewrite replace_match in Hs by discriminate.
      assert (Hrest_len : (length rest <= n)%nat).
      { apply (f_equal length) in Hrest. rewrite length_app in Hrest.
        simpl in Hrest. lia. }
      symmetry in Hs. apply List.app_eq_app in Hs as [l [[-> Ht] | [Hl ->]]].
      * symmetry in Ht. by apply (IH rest l t).
      * destruct l as [|l0 l].
        { by apply (IH rest [] (replace_from 0 http https rest)). }
        clear -Hl. rewrite https_chars in Hl. rewrite http_chars.
        repeat (destruct pre as [|? pre];
                [injection Hl as <- <-; reflexivity
                | injection Hl as _ Hl]).
        destruct pre; discriminate.
    + rewrite replace_no_match in Hs by assumption.
      destruct pre as [|p pre]; simpl in Hs.
      * subst t. destruct (startswith http (c :: replace_from 0 http https s))
          eqn:Eout; [|reflexivity].
        apply startswith_spec in Eout as [out Hout].
        rewrite http_chars in Hout. injection Hout as -> Hout.
        apply (replace_copies [116; 116; 112; 58; 47; 47]%N) in Hout
          as (s' & -> & _); [|repeat constructor; discriminate].
        discriminate Estart.
      * injection Hs as _ Hs. apply (IH s pre t); [lia | exact Hs].
Qed.

Lemma replace_no_http (s : list char) : ~ occurs http (replace http https s).
Proof.
  intros (pre & post & Hocc).
  assert (Hno : startswith http (http ++ post) = false)
    by (apply (replace_no_http_at (length s) s pre); [lia | exact Hocc]).
  assert (Hyes : startswith http (http ++ post) = true)
    by (apply startswith_spec; by exists post).
  congruence.
Qed.

Lemma replace_absent (old new s : list char) :
  ~ occurs old s -> replace old new s = s.
Proof.
  unfold replace. induction s as [|c s IH]; intros Habsent; [reflexivity|].
  rewrite replace_no_match.
  - f_equal. apply IH. intros (pre & post & ->).
    apply Habsent. by exists (c :: pre), post.
  - destruct (startswith old (c :: s)) eqn:Estart; [|reflexivity].
    apply startswith_spec in Estart as [rest Hrest].
    exfalso. apply Habsent. by exists [], rest.
Qed.

End Replace.

(** X17.  A request that is not secure never reaches the function that
    [secure] wraps: it is redirected to the url of the request with
    [http://] replaced by [https://], in which [http://] does not occur.
    So a url that starts with [http://] and has no other one is sent to
    the same address under [https://], and a url without [http://] to
    itself.  A secure request is handled by the function. *)
Theorem secure_redirects_to_https {Args A : Type} (function : Args -> A)
    (req : Web.request) (args : Args) :
  (Web.is_secure req = false ->
   exists location,
     Web.secure function req args = Web.Redirect location
     /\ location = Web.replace Web.http Web.https (Web.url req)
     /\ ~ occurs Web.http location
     /\ (forall rest, Web.url req = Web.http ++ rest ->
                      ~ occurs Web.http rest ->
                      location = Web.https ++ rest)
     /\ (~ occurs Web.http (Web.url req) -> location = Web.url req))
  /\ (Web.is_secure req = true ->
      Web.secure function req args = Web.Handled (function args)).
Proof.
  unfold Web.secure. split; intros ->; cbn [negb]; [|reflexivity].
  eexists. split; [reflexivity|]. split; [reflexivity|].
  split; [apply replace_no_http|]. split.
  - intros rest -> Hrest. unfold Web.replace.
    rewrite replace_match by discriminate.
    f_equal. by apply replace_absent.
  - apply replace_absent.
Qed.

Lemma secure_redirects_to_https_witness :
  let req := Web.mk_request false
               (Text.of_string "http://shop.example.com/pay?back=http://x") in
  Web.is_secure req = false
  /\ exists location,
       Web.secure (fun n : nat => n) req 0%nat = Web.Redirect location
       /\ location = Web.replace Web.http Web.https (Web.url req)
       /\ ~ occurs Web.http location.
Proof.
  intros req.
  assert (Hplain : Web.is_secure req = false) by reflexivity.
  split; [exact Hplain|].
  destruct (secure_redirects_to_https (fun n : nat => n) req 0%nat)
    as [Hredirect _].
  destruct (Hredirect Hplain) as (location & Hsent & Hloc & Hclean & _).
  exists location. split; [exact Hsent|]. split; [exact Hloc | exact Hclean].
Defined.

Example secure_redirect_location :
  Web.secure (fun n : nat => n)
    (Web.mk_request false
       (Text.of_string "http://shop.example.com/pay?back=http://x")) 0%nat
  = Web.Redirect
      (Text.of_string "https://shop.example.com/pay?back=https://x").
Proof. reflexivity. Qed.

(** X18.  [url_for] keeps its own keywords to itself: what the url adapter
    is given has no [_external], [_secure] or [_params], has every other
    keyword of the caller, and always has a language, the caller's if
    there is one.  With [_secure] set the url is built as an external one
    and [http://] does not occur in what is returned. *)
Theorem url_for_builds_clean
    (build : string -> gmap string Web.pyval -> Web.pyval -> bool -> list Text.char)
    (urlencode : list (list Text.char * list Text.char) -> list Text.char)
    (language_code : Web.pyval) (endpoint : string)
    (values : gmap string Web.pyval) (rv : list Text.char) :
  Web.url_for build urlencode language_code endpoint values = Ok rv ->
  exists (built : gmap string Web.pyval) (external : Web.pyval)
         (tail : list Text.char),
    let secure := Web.truth (default (Web.PBool false) (values !! "_secure")) in
    let raw :=
      build endpoint built external
        (negb (Web.truth (default Web.PNone (values !! "_params")))) ++ tail in
    rv = (if secure then Web.replace Web.http Web.https raw else raw)
    /\ built !! "_external" = None /\ built !! "_secure" = None
    /\ built !! "_params" = None
    /\ built !! "language"
       = Some (default language_code (values !! "language"))
    /\ (forall k, k <> "_external" -> k <> "_secure" -> k <> "_params" ->
                  k <> "language" -> built !! k = values !! k)
    /\ (secure = true ->
        external = Web.PBool true /\ ~ occurs Web.http rv).
Proof.
  unfold Web.url_for, Web.pop. simpl.
  set (cleaned := delete "_params" (delete "_secure" (delete "_external" values))).
  set (built := match cleaned !! "language" with
                | Some _ => cleaned
                | None => <["language" := language_code]> cleaned
                end).
  assert (Hsecure : delete "_external" values !! "_secure" = values !! "_secure")
    by (by rewrite lookup_delete_ne).
  assert (Hparams : delete "_secure" (delete "_external" values) !! "_params"
                    = values !! "_params")
    by (by rewrite !lookup_delete_ne).
  rewrite Hsecure, Hparams.
  set (secure := Web.truth (default (Web.PBool false) (values !! "_secure"))).
  set (params := default Web.PNone (values !! "_params")).
  set (external := if secure then Web.PBool true else _).
  assert (Hclean : forall k, k <> "_external" -> k <> "_secure" ->
                             k <> "_params" -> cleaned !! k = values !! k).
  { intros k H1 H2 H3. subst cleaned. by rewrite !lookup_delete_ne. }
  assert (Hlang : cleaned !! "language" = values !! "language")
    by (apply Hclean; discriminate).
  assert (Hbuilt : built !! "_external" = None /\ built !! "_secure" = None
                   /\ built !! "_params" = None
                   /\ built !! "language"
                      = Some (default language_code (values !! "language"))
                   /\ (forall k, k <> "_external" -> k <> "_secure" ->
                                 k <> "_params" -> k <> "language" ->
                                 built !! k = values !! k)).
  { subst built. rewrite Hlang.
    destruct (values !! "language") as [l|] eqn:El; simpl.
    - subst cleaned. rewrite <- Hlang.
      repeat split; try (by simplify_map_eq).
      intros k H1 H2 H3 _. by apply Hclean.
    - repeat split; try (subst cleaned; by simplify_map_eq).
      intros k H1 H2 H3 H4. rewrite lookup_insert_ne by done. by apply Hclean. }
  intros Hrv.
  assert (Htail : exists tail,
            rv = (if secure
                  then Web.replace Web.http Web.https
                         (build endpoint built external (negb (Web.truth params))
                          ++ tail)
                  else build endpoint built external (negb (Web.truth params))
                       ++ tail)).
  { destruct (Web.truth params) eqn:Etruth.
    - destruct params as [| | |l]; try discriminate.
      simpl in Hrv. injection Hrv as <-. by eexists.
    - simpl in Hrv. injection Hrv as <-. exists []. by rewrite app_nil_r. }
  destruct Htail as [tail Htail].
  exists built, external, tail. simpl. split; [exact Htail|].
  destruct Hbuilt as (H1 & H2 & H3 & H4 & H5).
  repeat split; try assumption.
  - subst external. by destruct secure.
  - rewrite Htail. destruct secure; [|discriminate]. apply replace_no_http.
Qed.

Lemma url_for_builds_clean_witness :
  let build := fun (endpoint : string) (values : gmap string Web.pyval)
                   (external : Web.pyval) (append_unknown : bool) =>
    Text.of_string "http://shop.example.com/en_US/login" in
  let values : gmap string Web.pyval := {[ "_secure" := Web.PBool true ]} in
  Web.url_for build (fun _ => []) (Web.PStr (Text.of_string "en_US"))
    "nereid.website.login" values
  = Ok (Text.of_string "https://shop.example.com/en_US/login")
  /\ ~ occurs Web.http (Text.of_string "https://shop.example.com/en_US/login").
Proof.
  intros build values.
  assert (Hrv : Web.url_for build (fun _ => [])
                  (Web.PStr (Text.of_string "en_US")) "nereid.website.login"
                  values
                = Ok (Text.of_string "https://shop.example.com/en_US/login"))
    by (vm_compute; reflexivity).
  destruct (url_for_builds_clean _ _ _ _ _ _ Hrv)
    as (built & external & tail & _ & _ & _ & _ & _ & _ & Hsecure).
  split; [exact Hrv|]. apply Hsecure. reflexivity.
Defined.

(** ** Files served from a directory *)

Section PathFacts.
Import Text Host Paths.

Lemma split_cons_piece (sep : char) (piece rest : list char) :
  sep ∉ piece ->
  split sep (piece ++ sep :: rest) = piece :: split sep rest.
Proof.
  induction piece as [|c piece IH]; intros Hsep; simpl.
  - by rewrite N.eqb_refl.
  - apply not_elem_of_cons in Hsep as [Hc Hsep].
    destruct (N.eqb_spec c sep) as [|_]; [congruence|].
    by rewrite IH.
Qed.

Lemma split_one_piece (sep : char) (piece : list char) :
  sep ∉ piece -> split sep piece = [piece].
Proof.
  induction piece as [|c piece IH]; intros Hsep; simpl; [done|].
  apply not_elem_of_cons in Hsep as [Hc Hsep].
  destruct (N.eqb_spec c sep) as [|_]; [congruence|].
  by rewrite IH.
Qed.

(** Splitting what was joined gives the pieces back. *)
Lemma split_join (sep : char) (pieces : list (list char)) :
  pieces <> [] -> Forall (fun piece => sep ∉ piece) pieces ->
  split sep (join sep pieces) = pieces.
Proof.
  intros Hne Hall. induction Hall as [|piece pieces Hpiece Hall IH]; [done|].
  destruct pieces as [|piece' pieces]; simpl.
  - by apply split_one_piece.
  - rewrite split_cons_piece by assumption. f_equal. by apply IH.
Qed.

Lemma split_pieces (sep : char) (s : list char) :
  Forall (fun piece => sep ∉ piece) (split sep s).
Proof.
  induction s as [|c s IH]; simpl.
  - constructor; [apply not_elem_of_nil | constructor].
  - destruct (N.eqb_spec c sep) as [-> | Hne].
    + constructor; [apply not_elem_of_nil | exact IH].
    + destruct (split sep s) as [|piece pieces].
      * constructor; [|constructor].
        apply not_elem_of_cons. split; [congruence | apply not_elem_of_nil].
      * apply Forall_cons in IH as [Hpiece Hpieces].
        constructor; [|exact Hpieces].
        apply not_elem_of_cons. split; [congruence | exact Hpiece].
Qed.

(** For a relative path the components kept are plain ones below some
    [..] at the front. *)
Lemma normpath_step_relative (new_comps : list (list char)) (comp : list char)
    (kept : list (list char)) (ups : nat) :
  slash ∉ comp -> Forall plain_component kept ->
  new_comps = kept ++ replicate ups dotdot ->
  exists kept' ups',
    normpath_step 0 new_comps comp = kept' ++ replicate ups' dotdot
    /\ Forall plain_component kept'.
Proof.
  intros Hcomp Hkept ->. unfold normpath_step.
  destruct (decide (comp = [])) as [-> | Hne].
  { rewrite bool_decide_eq_true_2 by done. by exists kept, ups. }
  rewrite (bool_decide_eq_false_2 (comp = [])) by done.
  destruct (decide (comp = dot)) as [-> | Hdot].
  { rewrite bool_decide_eq_true_2 by done. by exists kept, ups. }
  rewrite (bool_decide_eq_false_2 (comp = dot)) by done.
  destruct (decide (comp = dotdot)) as [-> | Hdd].
  - rewrite (bool_decide_eq_true_2 (dotdot = dotdot)) by done.
    destruct kept as [|top kept].
    + destruct ups as [|ups].
      * rewrite (bool_decide_eq_true_2 (_ ++ _ = [])) by done.
        by exists [], 1%nat.
      * rewrite (bool_decide_eq_true_2 (head _ = _)) by done.
        rewrite orb_true_r. by exists [], (S (S ups)).
    + apply Forall_cons in Hkept as [Htop Hkept].
      rewrite (bool_decide_eq_false_2 (_ ++ _ = [])) by done.
      rewrite (bool_decide_eq_false_2 (head _ = _))
        by (intros [= ->]; by destruct Htop as (_ & _ & ? & _)).
      by exists kept, ups.
  - rewrite (bool_decide_eq_false_2 (comp = dotdot)) by done.
    exists (comp :: kept), ups. split; [done|]. by constructor.
Qed.

Lemma normpath_loop_relative (comps new_comps kept : list (list char))
    (ups : nat) :
  Forall (fun comp => slash ∉ comp) comps -> Forall plain_component kept ->
  new_comps = kept ++ replicate ups dotdot ->
  exists kept' ups',
    foldl (normpath_step 0) new_comps comps = kept' ++ replicate ups' dotdot
    /\ Forall plain_component kept'.
Proof.
  intros Hcomps. revert new_comps kept ups.
  induction Hcomps as [|comp comps Hcomp Hcomps IH];
    intros new_comps kept ups Hkept Hnew; simpl.
  - by exists kept, ups.
  - destruct (normpath_step_relative new_comps comp kept ups Hcomp Hkept Hnew)
      as (kept' & ups' & Hstep & Hkept').
    by apply (IH _ kept' ups').
Qed.

Lemma rev_replicate {A : Type} (n : nat) (x : A) :
  rev (replicate n x) = replicate n x.
Proof.
  rewrite rev_alt. exact (reverse_replicate n x).
Qed.

Lemma join_plain_not_empty (pieces : list (list char)) :
  pieces <> [] -> Forall (fun piece => piece <> []) pieces ->
  join slash pieces <> [].
Proof.
  intros Hne Hall. destruct Hall as [|piece pieces Hpiece Hall]; [done|].
  destruct pieces; simpl; [done|]. by destruct piece.
Qed.

(** A normalised path that starts neither with a slash nor with [../] has
    no [..] among its components, unless it is [..] itself. *)
Lemma normpath_relative (path : list char) :
  Web.startswith [slash] (normpath path) = false ->
  Web.startswith (dotdot ++ [slash]) (normpath path) = false ->
  normpath path = dotdot
  \/ Forall (fun comp => comp <> dotdot /\ comp <> [])
       (split slash (normpath path)).
Proof.
  unfold normpath.
  destruct (bool_decide_reflect (path = [])) as [|Hpath].
  { intros _ _. right. repeat constructor; discriminate. }
  destruct (Web.startswith [slash] path) eqn:Eabs.
  { set (i := if _ && _ then 2%nat else 1%nat).
    assert (Hi : exists j, i = S j)
      by (subst i; destruct (_ && _); by eexists).
    destruct Hi as [j ->]. simpl. intros Hslash _.
    done. }
  simpl.
  destruct (normpath_loop_relative (split slash path) [] [] 0
              (split_pieces slash path) (List.Forall_nil _) eq_refl)
    as (kept & ups & -> & Hkept).
  rewrite rev_app_distr, rev_replicate.
  destruct ups as [|ups]; simpl.
  - (* no [..] in front *)
    set (forward := rev kept).
    assert (Hforward : Forall plain_component forward) by (by apply Forall_rev).
    destruct (bool_decide_reflect (join slash forward = [])) as [|Hjoin].
    { intros _ _. right. repeat constructor; discriminate. }
    intros _ _. right.
    assert (Hne : forward <> []) by (intros E; rewrite E in Hjoin; done).
    rewrite split_join; [| exact Hne |].
    + eapply Forall_impl; [exact Hforward|].
      by intros comp (? & _ & ? & _).
    + eapply Forall_impl; [exact Hforward|].
      by intros comp (_ & _ & _ & ?).
  - (* at least one [..] in front *)
    destruct (replicate ups dotdot ++ rev kept) as [|next more] eqn:Erest.
    + intros _ _. by left.
    + simpl. intros _ Hup. discriminate Hup.
Qed.

End PathFacts.

(** X19.  [send_from_directory] serves nothing from outside the directory:
    when it does not raise [NotFound], the file it sends exists and is the
    directory followed by the normalised name, and that name has no empty
    component and no [..] among its components, unless it is [..]
    itself. *)
Theorem send_from_directory_confined {Response : Type}
    (isfile : list Text.char -> bool) (send_file : list Text.char -> Response)
    (directory filename : list Text.char) (response : Response) :
  Paths.send_from_directory isfile send_file directory filename = inr response ->
  let name := Paths.normpath filename in
  let served := Paths.path_join directory name in
  response = send_file served
  /\ isfile served = true
  /\ (served = directory ++ name \/ served = directory ++ Paths.slash :: name)
  /\ (name = Paths.dotdot
      \/ Forall (fun comp => comp <> Paths.dotdot /\ comp <> [])
           (Host.split Paths.slash name)).
Proof.
  intros Hsent name served. unfold Paths.send_from_directory in Hsent.
  fold name in Hsent.
  destruct (Web.startswith [Paths.slash] name) eqn:Eabs;
    [discriminate|]. cbn [orb] in Hsent.
  destruct (Web.startswith (Paths.dotdot ++ [Paths.slash]) name) eqn:Eup;
    [discriminate|].
  fold served in Hsent.
  destruct (isfile served) eqn:Efile; cbn [negb] in Hsent; [|discriminate].
  injection Hsent as <-. split; [reflexivity|]. split; [reflexivity|]. split.
  - subst served. unfold Paths.path_join. rewrite Eabs.
    destruct (_ || _); [by left | by right].
  - by apply normpath_relative.
Qed.

Lemma send_from_directory_confined_witness :
  let isfile := fun path : list Text.char =>
    bool_decide (path = Text.of_string "/srv/static/css/site.css") in
  let name := Paths.normpath (Text.of_string "img/../css//./site.css") in
  Paths.send_from_directory isfile (fun path => path)
    (Text.of_string "/srv/static") (Text.of_string "img/../css//./site.css")
  = inr (Text.of_string "/srv/static/css/site.css")
  /\ (name = Paths.dotdot
      \/ Forall (fun comp => comp <> Paths.dotdot /\ comp <> [])
           (Host.split Paths.slash name)).
Proof.
  intros isfile name.
  assert (Hsent : Paths.send_from_directory isfile (fun path => path)
                    (Text.of_string "/srv/static")
                    (Text.of_string "img/../css//./site.css")
                  = inr (Text.of_string "/srv/static/css/site.css"))
    by (vm_compute; reflexivity).
  destruct (send_from_directory_confined _ _ _ _ _ Hsent) as (_ & _ & _ & Hname).
  split; [exact Hsent | exact Hname].
Defined.

(** Names that point outside are turned down before the file system is
    looked at. *)
Example send_from_directory_refuses :
  (fun name => Paths.send_from_directory (fun _ => true) (fun path => path)
                 (Text.of_string "/srv/static") (Text.of_string name))
    <$> ["../etc/passwd"; "a/../../etc/passwd"; "/etc/passwd"; "//etc/passwd"]
  = [inl Paths.NotFound; inl Paths.NotFound; inl Paths.NotFound;
     inl Paths.NotFound].
Proof. vm_compute. reflexivity. Qed.

(** ** login_required *)

(** X20.  [login_required] never raises.  Without a user in the session
    the view is not called: the answer is a redirect to the url of
    [nereid.website.login], built from [next], the url of the request, and
    the language of the request, not forced to be external and with the
    unknown values appended.  With a user the view is called. *)
Theorem login_required_guards {Args A V : Type}
    (build : string -> gmap string Web.pyval -> Web.pyval -> bool -> list Text.char)
    (urlencode : list (list Text.char * list Text.char) -> list Text.char)
    (language_code : Web.pyval) (function : Args -> A)
    (session : gmap string V) (req : Web.request) (args : Args) :
  (session !! "user" = None ->
   Web.login_required build urlencode language_code function session req args
   = Ok (Web.Redirect
           (build "nereid.website.login"
              (<["language" := language_code]>
                 {[ "next" := Web.PStr (Web.url req) ]})
              (Web.PBool false) true)))
  /\ (forall user : V, session !! "user" = Some user ->
      Web.login_required build urlencode language_code function session req args
      = Ok (Web.Handled (function args))).
Proof.
  unfold Web.login_required. split.
  - intros ->. unfold Web.url_for, Web.pop.
    rewrite !delete_singleton_ne by discriminate.
    rewrite !lookup_singleton_ne by discriminate.
    reflexivity.
  - intros user ->. reflexivity.
Qed.

Lemma login_required_guards_witness :
  let build := fun (endpoint : string) (values : gmap string Web.pyval)
                   (external : Web.pyval) (append_unknown : bool) =>
    match values !! "next" with
    | Some (Web.PStr next) => Text.of_string "/en_US/login?next=" ++ next
    | _ => Text.of_string "/en_US/login"
    end in
  let req := Web.mk_request true (Text.of_string "/en_US/cart") in
  let session : gmap string Z := ∅ in
  session !! "user" = None
  /\ Web.login_required build (fun _ => []) (Web.PStr (Text.of_string "en_US"))
       (fun _ : unit => 200) session req tt
     = Ok (Web.Redirect (Text.of_string "/en_US/login?next=/en_US/cart")).
Proof.
  intros build req session.
  assert (Hanonymous : session !! "user" = None) by reflexivity.
  split; [exact Hanonymous|].
  destruct (login_required_guards build (fun _ => [])
              (Web.PStr (Text.of_string "en_US")) (fun _ : unit => 200)
              session req tt) as [Hredirect _].
  rewrite (Hredirect Hanonymous). vm_compute. reflexivity.
Defined.
